(** * MediaCrawler: identity pool, proxy pool, retry/backoff and progress store

  A shallow embedding of the scheduling core of the repository:

  - [Progress]   : [WeiboCommentScraper] of [comment.py]
                   (the success / failed sets and the retry of failed posts);
  - [Backoff]    : the retry delay of [comment.py];
  - [Identity]   : [WeiboAccount], [EnhancedWeiboScraper.rotate_account]
                   and [EnhancedWeiboScraper.batch_get_comments];
  - [Crawler]    : the exception handlers of [WeiboCrawler.get_note_comments];
  - [Proxy]      : [sdk/proxy_manager.py];
  - [Accounts]   : [sdk/account_manager.py].

  Timestamps ([time.time()]) are integers (seconds), a Python [set] of post
  ids is a [gset string], a list of objects mutated in place is a list
  addressed by position. *)

From Stdlib Require Import ZArith QArith Qminmax Lia Lqa.
From stdpp Require Import base gmap sets list strings pretty sorting.

Local Open Scope Z_scope.
Set Warnings "-clear-no-such-hyp".

(* ===================================================================== *)
(** ** Shared helpers *)
(* ===================================================================== *)

(** [list.sort(key=...)] is stable.  A stable insertion sort over a boolean
  "key less-or-equal" test is its functional counterpart: an element is
  inserted in front of the first element whose key is strictly greater. *)
Section StableSort.
Context {A : Type} (leb : A -> A -> bool).

Fixpoint insert_sorted (x : A) (l : list A) : list A :=
  match l with
  | [] => [x]
  | y :: l' => if leb y x then y :: insert_sorted x l' else x :: y :: l'
  end.

Fixpoint stable_sort_rev (acc : list A) (l : list A) : list A :=
  match l with
  | [] => acc
  | x :: l' => stable_sort_rev (insert_sorted x acc) l'
  end.

Definition stable_sort (l : list A) : list A := stable_sort_rev [] l.

Lemma insert_sorted_In x y l : In y (insert_sorted x l) <-> y = x \/ In y l.
Proof.
  induction l as [|z l IH]; simpl; [naive_solver|].
  destruct (leb z x); simpl; rewrite ?IH; naive_solver.
Qed.

Lemma stable_sort_rev_In y l : forall acc,
  In y (stable_sort_rev acc l) <-> In y acc \/ In y l.
Proof.
  induction l as [|x l IH]; intros acc; simpl; [naive_solver|].
  rewrite IH, insert_sorted_In. naive_solver.
Qed.

Lemma stable_sort_In y l : In y (stable_sort l) <-> In y l.
Proof. unfold stable_sort. rewrite stable_sort_rev_In. simpl. naive_solver. Qed.

Hypothesis leb_total : forall a b, leb a b = true \/ leb b a = true.
Hypothesis leb_trans : forall a b c, leb a b = true -> leb b c = true -> leb a c = true.

(** Every element is below all the elements that follow it. *)
Fixpoint ascending (l : list A) : Prop :=
  match l with
  | [] => True
  | x :: l' => (forall y, In y l' -> leb x y = true) /\ ascending l'
  end.

Lemma insert_sorted_ascending x l : ascending l -> ascending (insert_sorted x l).
Proof.
  induction l as [|z l IH]; simpl; [naive_solver|].
  intros [Hz Hl]. destruct (leb z x) eqn:Hzx; simpl.
  - split; [|by apply IH]. intros y Hy. apply insert_sorted_In in Hy as [->|Hy]; auto.
  - destruct (leb_total z x) as [Hc|Hc]; [congruence|].
    split_and!; [|done..]. intros y [<-|Hy]; [done|]. eapply leb_trans; eauto.
Qed.

Lemma stable_sort_rev_ascending l : forall acc,
  ascending acc -> ascending (stable_sort_rev acc l).
Proof.
  induction l as [|x l IH]; intros acc Hacc; simpl; [done|].
  apply IH. by apply insert_sorted_ascending.
Qed.

(** The first element of the sorted list is a least element of the list. *)
Lemma stable_sort_head_min l m rest :
  stable_sort l = m :: rest ->
  In m l /\ forall y, In y l -> leb m y = true.
Proof.
  intros Heq.
  assert (Hasc : ascending (stable_sort l)) by (by apply stable_sort_rev_ascending).
  split.
  - apply stable_sort_In. rewrite Heq. by left.
  - intros y Hy. apply stable_sort_In in Hy. rewrite Heq in Hy, Hasc.
    destruct Hasc as [Hm _]. destruct Hy as [<-|Hy]; [|auto].
    destruct (leb_total m m); done.
Qed.

Lemma stable_sort_nil l : stable_sort l = [] -> l = [].
Proof.
  intros Heq. destruct l as [|x l]; [done|].
  assert (In x (stable_sort (x :: l))) as Hin by (apply stable_sort_In; by left).
  rewrite Heq in Hin. done.
Qed.

End StableSort.

(** The elements of a pool are objects that are mutated in place; a position
    in the pool stands for the object. *)
Definition indexed {A : Type} (pool : list A) : list (nat * A) :=
  imap (fun i x => (i, x)) pool.

Lemma indexed_In {A : Type} (pool : list A) i x :
  In (i, x) (indexed pool) <-> pool !! i = Some x.
Proof.
  unfold indexed. rewrite <- list_elem_of_In. split.
  - intros H. apply elem_of_lookup_imap_1 in H as (j & y & Heq & Hj).
    by inversion Heq; subst.
  - intros H. by apply (elem_of_lookup_imap_2 (fun i x => (i, x))).
Qed.

Lemma In_list_insert {A : Type} (l : list A) i x y :
  In y (<[i := x]> l) -> y = x \/ In y l.
Proof.
  revert i. induction l as [|z l IH]; intros i Hin; [by right|].
  destruct i as [|i]; simpl in Hin.
  - destruct Hin as [<-|Hin]; [by left | right; by right].
  - destruct Hin as [<-|Hin]; [right; by left|].
    apply IH in Hin as [->|Hin]; [by left | right; by right].
Qed.

(** A filtered copy of the indexed pool is empty exactly when no element of
    the pool passes the test. *)
Lemma filter_indexed_nil {A : Type} (f : A -> bool) (pool : list A) :
  List.filter (fun e => f e.2) (indexed pool) = [] <-> existsb f pool = false.
Proof.
  split.
  - intros Hnil. apply not_true_is_false. intros Hex.
    apply existsb_exists in Hex as (x & Hx & Hfx).
    apply list_elem_of_In, list_elem_of_lookup in Hx as [i Hi].
    assert (Hin : In (i, x) (List.filter (fun e => f e.2) (indexed pool))).
    { apply filter_In. split; [by apply indexed_In | done]. }
    rewrite Hnil in Hin. done.
  - intros Hex.
    destruct (List.filter (fun e => f e.2) (indexed pool)) as [|[i x] l] eqn:Heq; [done|].
    assert (Hin : In (i, x) (List.filter (fun e => f e.2) (indexed pool)))
      by (rewrite Heq; by left).
    apply filter_In in Hin as [Hin Hfx]. apply indexed_In in Hin.
    assert (existsb f pool = true); [|congruence].
    apply existsb_exists. exists x. split; [|done].
    apply list_elem_of_In, list_elem_of_lookup. by exists i.
Qed.

(** Stability: the first element of the sorted list is, among the least
    elements of the list, the one that comes first. *)
Section StableFirst.
Context {A : Type} (leb : A -> A -> bool).
Hypothesis leb_total : forall a b, leb a b = true \/ leb b a = true.
Hypothesis leb_trans : forall a b c, leb a b = true -> leb b c = true -> leb a c = true.

Definition first_least (h : A) (p : list A) : Prop :=
  exists p1 p2,
    p = p1 ++ h :: p2
    /\ (forall y, In y p1 -> leb y h = false)
    /\ (forall y, In y p2 -> leb h y = true).

Lemma insert_sorted_head x acc :
  head (insert_sorted leb x acc)
  = match head acc with
    | None => Some x
    | Some h => if leb h x then Some h else Some x
    end.
Proof. destruct acc as [|h acc]; simpl; [done|]. by destruct (leb h x). Qed.

Lemma first_least_snoc h p x :
  first_least h p ->
  first_least (if leb h x then h else x) (p ++ [x]).
Proof.
  intros (p1 & p2 & -> & Hp1 & Hp2). destruct (leb h x) eqn:Hhx.
  - exists p1, (p2 ++ [x]). split_and!; [by rewrite <- app_assoc | done |].
    intros y Hy. apply in_app_or in Hy as [Hy|[<-|[]]]; auto.
  - exists (p1 ++ h :: p2), []. split_and!; [done | | intros y []].
    assert (Hxh : leb x h = true) by (destruct (leb_total x h); congruence).
    intros y Hy. apply not_true_is_false. intros Hyx.
    apply in_app_or in Hy as [Hy|[<-|Hy]].
    + pose proof (Hp1 y Hy) as Hn. rewrite (leb_trans y x h Hyx Hxh) in Hn. discriminate.
    + congruence.
    + rewrite (leb_trans h y x (Hp2 y Hy) Hyx) in Hhx. discriminate.
Qed.

Lemma stable_sort_rev_first_least l : forall acc p,
  match head acc with None => p = [] | Some h => first_least h p end ->
  match head (stable_sort_rev leb acc l) with
  | None => p ++ l = []
  | Some h => first_least h (p ++ l)
  end.
Proof.
  induction l as [|x l IH]; intros acc p Hacc; simpl.
  - by rewrite app_nil_r.
  - replace (p ++ x :: l) with ((p ++ [x]) ++ l) by (by rewrite <- app_assoc).
    apply IH. rewrite insert_sorted_head.
    destruct (head acc) as [h|].
    + pose proof (first_least_snoc h p x Hacc) as Hs. by destruct (leb h x).
    + subst p. exists [], []. split_and!; [done | intros y [] | intros y []].
Qed.

Lemma stable_sort_head_first l m rest :
  stable_sort leb l = m :: rest -> first_least m l.
Proof.
  intros Heq. pose proof (stable_sort_rev_first_least l [] [] eq_refl) as H.
  unfold stable_sort in Heq. rewrite Heq in H. done.
Qed.

End StableFirst.

(** Sorting rearranges the list and keeps the order of elements that
    compare equal. *)
Section StablePermutation.
Context {A : Type} (leb : A -> A -> bool).

Lemma insert_sorted_Permutation x l : insert_sorted leb x l ≡ₚ x :: l.
Proof.
  induction l as [|y l IH]; simpl; [done|].
  destruct (leb y x); [|done]. rewrite IH. apply perm_swap.
Qed.

Lemma stable_sort_rev_Permutation l : forall acc,
  stable_sort_rev leb acc l ≡ₚ acc ++ l.
Proof.
  induction l as [|x l IH]; intros acc; simpl; [by rewrite app_nil_r|].
  rewrite IH, insert_sorted_Permutation. apply Permutation_middle.
Qed.

Lemma stable_sort_Permutation l : stable_sort leb l ≡ₚ l.
Proof. apply (stable_sort_rev_Permutation l []). Qed.

Lemma stable_sort_length l : length (stable_sort leb l) = length l.
Proof. by rewrite stable_sort_Permutation. Qed.

Lemma insert_sorted_last x acc :
  (forall y, In y acc -> leb y x = true) -> insert_sorted leb x acc = acc ++ [x].
Proof.
  induction acc as [|y acc IH]; intros Hacc; simpl; [done|].
  rewrite (Hacc y) by (by left). rewrite IH; [done|]. intros z Hz. apply Hacc. by right.
Qed.

Lemma stable_sort_rev_equal l : forall acc,
  (forall a b, In a (acc ++ l) -> In b (acc ++ l) -> leb a b = true) ->
  stable_sort_rev leb acc l = acc ++ l.
Proof.
  induction l as [|x l IH]; intros acc Heq; simpl; [by rewrite app_nil_r|].
  rewrite insert_sorted_last.
  - rewrite IH; [by rewrite <- app_assoc|]. by rewrite <- app_assoc.
  - intros y Hy. apply Heq; apply in_or_app; [by left | right; by left].
Qed.

(** A list whose elements all have the same key is left as it is. *)
Lemma stable_sort_equal l :
  (forall a b, In a l -> In b l -> leb a b = true) -> stable_sort leb l = l.
Proof. intros Heq. by apply (stable_sort_rev_equal l []). Qed.

End StablePermutation.

Lemma In_take {A : Type} (x : A) n l : In x (take n l) -> In x l.
Proof. intros H. rewrite <- (take_drop n l). apply in_or_app. by left. Qed.

Lemma In_drop {A : Type} (x : A) n l : In x (drop n l) -> In x l.
Proof. intros H. rewrite <- (take_drop n l). apply in_or_app. by right. Qed.

Lemma filter_true {A : Type} (f : A -> bool) (l : list A) :
  (forall x, In x l -> f x = true) -> List.filter f l = l.
Proof.
  induction l as [|x l IH]; intros Hall; simpl; [done|].
  rewrite (Hall x) by (by left). f_equal. apply IH. intros y Hy. apply Hall. by right.
Qed.

Lemma indexed_snd {A : Type} (pool : list A) : List.map snd (indexed pool) = pool.
Proof.
  unfold indexed. change (List.map snd ?l) with (snd <$> l).
  rewrite fmap_imap. rewrite (imap_const id). apply list_fmap_id.
Qed.

Lemma map_take_indexed {A B : Type} (f : A -> B) n (pool : list A) :
  List.map (fun e : nat * A => f e.2) (take n (indexed pool)) = List.map f (take n pool).
Proof.
  rewrite <- (indexed_snd pool) at 2. change (List.map ?g ?l) with (g <$> l).
  by rewrite <- fmap_take, <- list_fmap_compose.
Qed.

(** The positions of an indexed pool increase, also after filtering. *)
Definition by_position {A : Type} (a b : nat * A) : Prop := (a.1 < b.1)%nat.

Lemma imap_by_position {A : Type} (pool : list A) : forall k,
  StronglySorted by_position (imap (fun i x => ((k + i)%nat, x)) pool).
Proof.
  induction pool as [|x pool IH]; intros k; [constructor|].
  rewrite imap_cons. apply StronglySorted_cons. split.
  - apply Forall_forall. intros e He.
    apply elem_of_lookup_imap_1 in He as (i & y & -> & _).
    unfold by_position. simpl. lia.
  - rewrite (imap_ext _ (fun i y => ((S k + i)%nat, y))); [apply IH|].
    intros i y _. simpl. f_equal. lia.
Qed.

Lemma filter_by_position {A : Type} (f : nat * A -> bool) (l : list (nat * A)) :
  StronglySorted by_position l -> StronglySorted by_position (List.filter f l).
Proof.
  induction 1 as [|a l Hl IH Ha]; simpl; [constructor|].
  destruct (f a); [|done]. constructor; [done|].
  apply List.Forall_forall. intros e He. apply filter_In in He as [He _].
  rewrite List.Forall_forall in Ha. by apply Ha.
Qed.

Lemma filter_indexed_before {A : Type} (f : nat * A -> bool) (pool : list A) p1 e p2 :
  List.filter f (indexed pool) = p1 ++ e :: p2 ->
  (forall a, In a p1 -> (a.1 < e.1)%nat) /\ (forall b, In b p2 -> (e.1 < b.1)%nat).
Proof.
  intros Heq.
  assert (Hs : StronglySorted by_position (p1 ++ e :: p2)).
  { rewrite <- Heq. apply filter_by_position. apply (imap_by_position pool 0). }
  apply StronglySorted_app in Hs as (Hcross & _ & Hright).
  apply StronglySorted_cons in Hright as [Hright _].
  split.
  - intros a Ha. apply (Hcross a e); [by apply list_elem_of_In | by left].
  - intros b Hb. rewrite Forall_forall in Hright. apply Hright. by apply list_elem_of_In.
Qed.

(** [needle in hay] on Python strings. *)
Fixpoint contains (needle hay : string) : bool :=
  String.prefix needle hay
  || match hay with
     | EmptyString => false
     | String _ hay' => contains needle hay'
     end.

(* ===================================================================== *)
(** ** comment.py : the progress store of [WeiboCommentScraper] *)
(* ===================================================================== *)

Module Progress.

(** The counters of [self.stats] that [process_batch] updates. *)
Record Stats := mkStats {
  total_posts_processed : nat;
  successful_posts : nat;
  failed_posts : nat;
  total_comments_scraped : nat;
  empty_comment_posts : nat
}.

(** [self.success_post_ids], [self.failed_post_ids], [self.stats], and the
    number of posts attempted so far (the index into the environment). *)
Record Scraper := mkScraper {
  success_post_ids : gset string;
  failed_post_ids : gset string;
  stats : Stats;
  attempts : nat
}.

Definition stats_success (n : nat) (s : Stats) : Stats :=
  {| total_posts_processed := S (total_posts_processed s);
     successful_posts := S (successful_posts s);
     failed_posts := failed_posts s;
     total_comments_scraped := total_comments_scraped s + n;
     empty_comment_posts := empty_comment_posts s |}.

Definition stats_empty (s : Stats) : Stats :=
  {| total_posts_processed := S (total_posts_processed s);
     successful_posts := successful_posts s;
     failed_posts := failed_posts s;
     total_comments_scraped := total_comments_scraped s;
     empty_comment_posts := S (empty_comment_posts s) |}.

Definition stats_failed (s : Stats) : Stats :=
  {| total_posts_processed := total_posts_processed s;
     successful_posts := successful_posts s;
     failed_posts := S (failed_posts s);
     total_comments_scraped := total_comments_scraped s;
     empty_comment_posts := empty_comment_posts s |}.

(** A post id has exactly one terminal status. *)
Definition one_status (st : Scraper) (post_id : string) : Prop :=
  (post_id ∈ success_post_ids st ∧ ¬ post_id ∈ failed_post_ids st)
  ∨ (¬ post_id ∈ success_post_ids st ∧ post_id ∈ failed_post_ids st).

Section Run.
(** The environment: what the body of the [try] in [process_batch]
    (delay, [rotate_account], optional proxy rotation,
    [_fetch_comments_with_retry]) yields for the [k]-th attempted post:
    [Some n] when it returns [n] comments, [None] when it raises. *)
Variable outcome : nat -> string -> option nat.

(** One iteration of [for post_id in post_id_batch] (lines 168-213). *)
Definition process_post (st : Scraper) (post_id : string) : Scraper :=
  if decide (post_id ∈ success_post_ids st) then st            (* continue *)
  else
    match outcome (attempts st) post_id with
    | Some (S n) =>
        {| success_post_ids := {[post_id]} ∪ success_post_ids st;
           failed_post_ids := failed_post_ids st;
           stats := stats_success (S n) (stats st);
           attempts := S (attempts st) |}
    | Some O =>
        {| success_post_ids := {[post_id]} ∪ success_post_ids st;
           failed_post_ids := failed_post_ids st;
           stats := stats_empty (stats st);
           attempts := S (attempts st) |}
    | None =>
        {| success_post_ids := success_post_ids st;
           failed_post_ids := {[post_id]} ∪ failed_post_ids st;
           stats := stats_failed (stats st);
           attempts := S (attempts st) |}
    end.

Definition process_batch (st : Scraper) (post_id_batch : list string) : Scraper :=
  foldl process_post st post_id_batch.

(** [[post_ids[i:i+batch_size] for i in range(0, len(post_ids), batch_size)]];
    [range] raises [ValueError] for a zero step. *)
Fixpoint batches_from (fuel batch_size : nat) (post_ids : list string)
  : list (list string) :=
  match fuel with
  | O => []
  | S fuel' =>
      match post_ids with
      | [] => []
      | _ => take batch_size post_ids
               :: batches_from fuel' batch_size (drop batch_size post_ids)
      end
  end.

Definition batches (batch_size : nat) (post_ids : list string)
  : option (list (list string)) :=
  match batch_size with
  | O => None
  | _ => Some (batches_from (length post_ids) batch_size post_ids)
  end.

(** [scrape_comments_for_post_ids] (lines 143-240).  The batches are
    gathered under a semaphore; a post id is read and written only by the
    iteration that handles it, so the batches are run here one after the
    other.  [None] is the [ValueError] of a zero batch size. *)
Definition scrape_comments_for_post_ids
    (batch_size : nat) (st : Scraper) (post_ids : list string) : option Scraper :=
  match post_ids with
  | [] => Some st
  | _ =>
      match batches batch_size post_ids with
      | None => None
      | Some bs => Some (foldl process_batch st bs)
      end
  end.

Definition clear_failed (st : Scraper) : Scraper :=
  {| success_post_ids := success_post_ids st;
     failed_post_ids := ∅;
     stats := stats st;
     attempts := attempts st |}.

Definition update_failed (st : Scraper) (ids : list string) : Scraper :=
  {| success_post_ids := success_post_ids st;
     failed_post_ids := failed_post_ids st ∪ list_to_set ids;
     stats := stats st;
     attempts := attempts st |}.

(** The [for retry in range(max_retries)] loop of [retry_failed_posts]
    (lines 101-135); [rounds] is the number of iterations left.  The
    scaling of [min_delay]/[max_delay] around each round is restored by
    the [finally] and does not touch the sets. *)
Fixpoint retry_rounds (rounds batch_size : nat)
    (post_ids_to_retry : list string) (st : Scraper)
  : option (list string * Scraper) :=
  match rounds with
  | O => Some (post_ids_to_retry, st)
  | S rounds' =>
      match post_ids_to_retry with
      | [] => Some (post_ids_to_retry, st)                       (* break *)
      | _ =>
          match scrape_comments_for_post_ids batch_size st post_ids_to_retry with
          | None => None
          | Some st1 =>
              let still_failed := elements (failed_post_ids st1) in
              let st2 := clear_failed st1 in
              match still_failed with
              | [] => Some (still_failed, st2)                   (* break *)
              | _ => retry_rounds rounds' batch_size still_failed st2
              end
          end
      end
  end.

(** [retry_failed_posts] (lines 90-141). *)
Definition retry_failed_posts
    (max_retries batch_size : nat) (st : Scraper) : option Scraper :=
  if decide (failed_post_ids st = ∅) then Some st
  else
    let post_ids_to_retry := elements (failed_post_ids st) in
    match retry_rounds max_retries batch_size post_ids_to_retry (clear_failed st) with
    | None => None
    | Some (remaining, st') => Some (update_failed st' remaining)
    end.

(** [scrape_comments_for_content_csv] (lines 70-88): the posts of the CSV
    that have no comments yet and are not already marked successful. *)
Definition post_ids_to_scrape
    (st : Scraper) (post_ids : list string) (existing : gset string) : list string :=
  let candidates : gset string := list_to_set post_ids ∖ existing in
elements (candidates ∖ success_post_ids st).

(** The run of [scrape_comments_for_existing_content] (lines 464-514):
    batches of 30, then [retry_failed_posts] with 3 retries and batches
    of 20. *)
Definition run (st : Scraper) (post_ids : list string) (existing : gset string)
  : option Scraper :=
  match scrape_comments_for_post_ids 30 st (post_ids_to_scrape st post_ids existing) with
  | None => None
  | Some st1 => retry_failed_posts 3 20 st1
  end.

(** *** Facts about one post and one batch *)

Lemma process_post_success_mono st post_id :
  success_post_ids st ⊆ success_post_ids (process_post st post_id).
Proof.
  unfold process_post. case_decide; [done|].
  destruct (outcome _ _) as [[|n]|]; simpl; set_solver.
Qed.

Lemma process_post_failed_bounds st post_id :
  failed_post_ids st ⊆ failed_post_ids (process_post st post_id)
  ∧ failed_post_ids (process_post st post_id) ⊆ {[post_id]} ∪ failed_post_ids st.
Proof.
  unfold process_post. case_decide; [set_solver|].
  destruct (outcome _ _) as [[|n]|]; simpl; set_solver.
Qed.

Lemma process_post_covered st post_id :
  post_id ∈ success_post_ids (process_post st post_id)
  ∨ post_id ∈ failed_post_ids (process_post st post_id).
Proof.
  unfold process_post. case_decide; [by left|].
  destruct (outcome _ _) as [[|n]|]; simpl; set_solver.
Qed.

Lemma process_post_disjoint st post_id :
  post_id ∉ failed_post_ids st ->
  success_post_ids st ## failed_post_ids st ->
  success_post_ids (process_post st post_id) ## failed_post_ids (process_post st post_id).
Proof.
  intros Hf Hd. unfold process_post. case_decide; [done|].
  destruct (outcome _ _) as [[|n]|]; simpl; set_solver.
Qed.

Lemma process_batch_bounds post_ids : forall st,
  success_post_ids st ⊆ success_post_ids (process_batch st post_ids)
  ∧ failed_post_ids st ⊆ failed_post_ids (process_batch st post_ids)
  ∧ failed_post_ids (process_batch st post_ids) ⊆ failed_post_ids st ∪ list_to_set post_ids.
Proof.
  induction post_ids as [|p l IH]; intros st; simpl.
  - set_solver.
  - destruct (IH (process_post st p)) as (Hs & Hf & Hb).
    pose proof (process_post_success_mono st p).
    pose proof (process_post_failed_bounds st p) as [? ?].
    unfold process_batch in *. set_solver.
Qed.

Lemma process_batch_covered post_ids : forall st post_id,
  post_id ∈ post_ids ->
  post_id ∈ success_post_ids (process_batch st post_ids)
  ∨ post_id ∈ failed_post_ids (process_batch st post_ids).
Proof.
  induction post_ids as [|p l IH]; intros st x Hx.
  - by apply elem_of_nil in Hx.
  - apply elem_of_cons in Hx as [->|Hx]; simpl.
    + destruct (process_batch_bounds l (process_post st p)) as (Hs & Hf & _).
      unfold process_batch in *.
      destruct (process_post_covered st p); [left|right]; set_solver.
    + by apply IH.
Qed.

Lemma process_batch_disjoint post_ids : forall st,
  NoDup post_ids ->
  (forall p, p ∈ post_ids -> p ∉ failed_post_ids st) ->
  success_post_ids st ## failed_post_ids st ->
  success_post_ids (process_batch st post_ids) ## failed_post_ids (process_batch st post_ids).
Proof.
  induction post_ids as [|p l IH]; intros st Hnd Hfresh Hdisj; simpl; [done|].
  apply NoDup_cons in Hnd as [Hp Hnd].
  apply IH; [done| |].
  - intros q Hq Hin.
    destruct (process_post_failed_bounds st p) as [_ Hb].
    apply Hb in Hin. apply elem_of_union in Hin as [Hin|Hin].
    + apply elem_of_singleton in Hin as ->. done.
    + eapply Hfresh; [|done]. by right.
  - apply process_post_disjoint; [|done]. apply Hfresh. by left.
Qed.

(** *** Batching does not change what is processed *)

Lemma batches_from_concat fuel batch_size : forall post_ids,
  (0 < batch_size)%nat -> (length post_ids <= fuel)%nat ->
  concat (batches_from fuel batch_size post_ids) = post_ids.
Proof.
  induction fuel as [|fuel IH]; intros l Hb Hl.
  - destruct l; [done | simpl in Hl; lia].
  - destruct l as [|x l]; [done|].
    cbn [batches_from concat].
    rewrite IH; [apply take_drop | done |].
    rewrite length_drop. simpl in *. lia.
Qed.

Lemma foldl_process_batch bs : forall st,
  foldl process_batch st bs = process_batch st (concat bs).
Proof.
  induction bs as [|b bs IH]; intros st; simpl; [done|].
  rewrite IH. unfold process_batch. by rewrite foldl_app.
Qed.

Lemma scrape_comments_for_post_ids_eq batch_size st post_ids :
  (0 < batch_size)%nat ->
  scrape_comments_for_post_ids batch_size st post_ids
  = Some (process_batch st post_ids).
Proof.
  intros Hb. unfold scrape_comments_for_post_ids, batches.
  destruct post_ids as [|p l]; [done|].
  destruct batch_size as [|b]; [lia|].
  rewrite foldl_process_batch, batches_from_concat; [done | lia | done].
Qed.

(** *** The retry loop *)

Ltac no_member :=
  intros; match goal with H : _ ∈ [] |- _ => by apply elem_of_nil in H end.

Lemma retry_rounds_spec rounds batch_size : forall post_ids_to_retry st,
  (0 < batch_size)%nat ->
  NoDup post_ids_to_retry ->
  failed_post_ids st = ∅ ->
  exists remaining st',
    retry_rounds rounds batch_size post_ids_to_retry st = Some (remaining, st')
    ∧ failed_post_ids st' = ∅
    ∧ success_post_ids st ⊆ success_post_ids st'
    ∧ (forall p, p ∈ post_ids_to_retry -> p ∈ success_post_ids st' ∨ p ∈ remaining)
    ∧ ((0 < rounds)%nat ∨ (forall p, p ∈ post_ids_to_retry -> p ∉ success_post_ids st) ->
       forall p, p ∈ remaining -> p ∉ success_post_ids st').
Proof.
  induction rounds as [|rounds IH]; intros pending st Hb Hnd Hempty.
  - exists pending, st. simpl. repeat split; try done.
    + intros p Hp. by right.
    + intros [Hr|Hfresh]; [lia | done].
  - destruct pending as [|q pending'] eqn:Hpending.
    + exists [], st. simpl. split_and!; try done; no_member.
    + rewrite <- Hpending in *. cbn [retry_rounds].
      rewrite scrape_comments_for_post_ids_eq by done.
      set (st1 := process_batch st pending).
      assert (Hdisj : success_post_ids st1 ## failed_post_ids st1).
      { apply process_batch_disjoint; [done| |]; rewrite Hempty; set_solver. }
      destruct (process_batch_bounds pending st) as (Hmono & _ & _).
      fold st1 in Hmono.
      assert (Hcov : forall p, p ∈ pending ->
                p ∈ success_post_ids st1 ∨ p ∈ elements (failed_post_ids st1)).
      { intros p Hp. destruct (process_batch_covered pending st p Hp); [by left|right].
        by apply elem_of_elements. }
      assert (Hfresh : forall p, p ∈ elements (failed_post_ids st1) ->
                p ∉ success_post_ids (clear_failed st1)).
      { intros p Hp. apply elem_of_elements in Hp. simpl. set_solver. }
      rewrite Hpending.
      destruct (elements (failed_post_ids st1)) as [|r still] eqn:Hstill.
      * exists [], (clear_failed st1). simpl. split_and!; try done; try no_member.
        intros p Hp. rewrite <- Hpending in Hp. apply Hcov in Hp as [Hp|Hp]; [by left|].
        by apply elem_of_nil in Hp.
      * rewrite <- Hstill in *.
        destruct (IH (elements (failed_post_ids st1)) (clear_failed st1))
          as (remaining & st' & Heq & He & Hs & Hc & Hf);
          [done | apply NoDup_elements | done |].
        exists remaining, st'. rewrite Hstill in Heq. rewrite Hstill.
        rewrite <- Hstill in *.
        repeat split; try done.
        -- etrans; [exact Hmono | exact Hs].
        -- intros p Hp. rewrite <- Hpending in Hp. apply Hcov in Hp as [Hp|Hp].
           ++ left. apply Hs. done.
           ++ by apply Hc.
        -- intros _. apply Hf. by right.
Qed.

Lemma retry_failed_posts_spec max_retries batch_size st :
  (0 < max_retries)%nat -> (0 < batch_size)%nat ->
  exists st',
    retry_failed_posts max_retries batch_size st = Some st'
    ∧ success_post_ids st ⊆ success_post_ids st'
    ∧ success_post_ids st' ## failed_post_ids st'
    ∧ (forall p, p ∈ failed_post_ids st ->
         p ∈ success_post_ids st' ∨ p ∈ failed_post_ids st').
Proof.
  intros Hr Hb. unfold retry_failed_posts.
  case_decide as Hempty.
  - exists st. rewrite Hempty. repeat split; try done; set_solver.
  - destruct (retry_rounds_spec max_retries batch_size
                (elements (failed_post_ids st)) (clear_failed st))
      as (remaining & st' & Heq & He & Hs & Hc & Hf);
      [done | apply NoDup_elements | done |].
    rewrite Heq. exists (update_failed st' remaining). simpl in *.
    rewrite He. repeat split; try done.
    + intros p Hp1 Hp2. apply elem_of_union in Hp2 as [Hp2|Hp2]; [set_solver|].
      apply elem_of_list_to_set in Hp2. eapply Hf; eauto.
    + intros p Hp. apply elem_of_elements in Hp. apply Hc in Hp as [Hp|Hp]; [by left|].
      right. apply elem_of_union. right. by apply elem_of_list_to_set.
Qed.

(** C1. When the run of [scrape_comments_for_existing_content] completes
    (first pass in batches of 30, then [retry_failed_posts]), it does
    complete, and every submitted post id is in exactly one of
    [success_post_ids] and [failed_post_ids]: none is in both, none is in
    neither.  This holds for every loaded progress (also one whose failed
    set already holds a submitted id), every CSV and every behaviour of the
    network. *)
Theorem run_one_terminal_status st post_ids existing :
  exists final,
    run st post_ids existing = Some final
    ∧ forall post_id,
        post_id ∈ post_ids_to_scrape st post_ids existing ->
        one_status final post_id.
Proof.
  unfold run.
  rewrite scrape_comments_for_post_ids_eq by lia.
  set (submitted := post_ids_to_scrape st post_ids existing).
  set (st1 := process_batch st submitted).
  destruct (retry_failed_posts_spec 3 20 st1) as (final & Heq & Hs & Hd & Hc); [lia | lia |].
  exists final. split; [done|].
  intros p Hp. unfold one_status.
  destruct (process_batch_covered submitted st p Hp) as [Hin|Hin].
  - left. split; [by apply Hs|]. intros Hf. apply (Hd p); [by apply Hs | done].
  - destruct (Hc p Hin) as [Hin'|Hin'].
    + left. split; [done|]. intros Hf. by apply (Hd p).
    + right. split; [|done]. intros Hs'. by apply (Hd p).
Qed.

End Run.

(** A resumed run: the loaded progress lists post 42 as failed, the CSV
    holds 42 and 43, and this time every fetch returns three comments.
    After the first pass 42 is in both sets; [retry_failed_posts] then drops
    it from the failed set. *)
Definition always_three (k : nat) (post_id : string) : option nat := Some 3%nat.

Definition resumed : Scraper :=
  mkScraper ∅ {["42"%string]} (mkStats 0 0 0 0 0) 0.

Example first_pass_keeps_stale_failure :
  (fun st => (elements (success_post_ids st), elements (failed_post_ids st)))
    <$> scrape_comments_for_post_ids always_three 30 resumed ["42"; "43"]%string
  = Some (["43"; "42"]%string, ["42"%string]).
Proof. by vm_compute. Qed.

Example run_clears_stale_failure :
  (fun st => (elements (success_post_ids st), elements (failed_post_ids st)))
    <$> run always_three resumed ["42"; "43"]%string ∅
  = Some (["43"; "42"]%string, []).
Proof. by vm_compute. Qed.

(** *** More about the passes over the posts *)

Section Passes.
Variable outcome : nat -> string -> option nat.

Lemma process_batch_all_successful post_ids : forall st,
  (forall p, p ∈ post_ids -> p ∈ success_post_ids st) ->
  process_batch outcome st post_ids = st.
Proof.
  induction post_ids as [|p l IH]; intros st Hall; simpl; [done|].
  assert (Hp : process_post outcome st p = st).
  { unfold process_post. case_decide as Hin; [done|]. destruct Hin. apply Hall. by left. }
  unfold process_batch in *. simpl. rewrite Hp. apply IH.
  intros q Hq. apply Hall. by right.
Qed.

(** X1. Posts already marked successful are skipped: a pass over posts that
    are all in [success_post_ids] attempts nothing and leaves the sets, the
    statistics and the attempt counter as they were. *)
Theorem scrape_skips_successful batch_size st post_ids :
  (0 < batch_size)%nat ->
  (forall p, p ∈ post_ids -> p ∈ success_post_ids st) ->
  scrape_comments_for_post_ids outcome batch_size st post_ids = Some st.
Proof.
  intros Hb Hall. rewrite scrape_comments_for_post_ids_eq by done.
  by rewrite process_batch_all_successful.
Qed.

Lemma batches_from_sizes fuel batch_size : forall post_ids b,
  (0 < batch_size)%nat ->
  b ∈ batches_from fuel batch_size post_ids ->
  (0 < length b <= batch_size)%nat.
Proof.
  induction fuel as [|fuel IH]; intros l b Hb Hin; simpl in Hin.
  - by apply elem_of_nil in Hin.
  - destruct l as [|x l]; [by apply elem_of_nil in Hin|].
    apply elem_of_cons in Hin as [->|Hin]; [|by eapply IH].
    rewrite length_take. destruct batch_size; simpl; lia.
Qed.

(** X2. The batches of [scrape_comments_for_post_ids]: for a positive batch
    size the list of posts is cut, in order, into batches that each hold at
    least one and at most [batch_size] posts; a batch size of 0 is an error
    ([range] with a zero step). *)
Theorem batches_partition batch_size post_ids :
  match batches batch_size post_ids with
  | None => batch_size = 0%nat
  | Some bs =>
      (0 < batch_size)%nat
      /\ concat bs = post_ids
      /\ forall b, b ∈ bs -> (0 < length b <= batch_size)%nat
  end.
Proof.
  unfold batches. destruct batch_size as [|n]; [done|].
  split_and!; [lia | by apply batches_from_concat; lia |].
  intros b Hb. eapply batches_from_sizes; [lia | done].
Qed.

(** X3. The counters of a pass add up: every attempt of a post is counted
    either as processed or as failed, every processed post either as
    successful or as empty, and the comment total never goes down. *)
Theorem process_batch_counters post_ids : forall st,
  let st' := process_batch outcome st post_ids in
  (attempts st' + total_posts_processed (stats st) + failed_posts (stats st)
   = attempts st + total_posts_processed (stats st') + failed_posts (stats st'))%nat
  /\ (total_posts_processed (stats st') + successful_posts (stats st)
      + empty_comment_posts (stats st)
      = total_posts_processed (stats st) + successful_posts (stats st')
        + empty_comment_posts (stats st'))%nat
  /\ (total_comments_scraped (stats st) <= total_comments_scraped (stats st'))%nat.
Proof.
  induction post_ids as [|p l IH]; intros st; [simpl; lia|].
  specialize (IH (process_post outcome st p)). cbv zeta in *.
  unfold process_batch in *. simpl.
  destruct IH as (IH1 & IH2 & IH3).
  assert (Hstep :
    (attempts (process_post outcome st p) + total_posts_processed (stats st)
       + failed_posts (stats st)
     = attempts st + total_posts_processed (stats (process_post outcome st p))
       + failed_posts (stats (process_post outcome st p)))%nat
    /\ (total_posts_processed (stats (process_post outcome st p))
        + successful_posts (stats st) + empty_comment_posts (stats st)
        = total_posts_processed (stats st)
          + successful_posts (stats (process_post outcome st p))
          + empty_comment_posts (stats (process_post outcome st p)))%nat
    /\ (total_comments_scraped (stats st)
        <= total_comments_scraped (stats (process_post outcome st p)))%nat).
  { unfold process_post. case_decide; [lia|].
    destruct (outcome _ _) as [[|n]|]; simpl; lia. }
  lia.
Qed.

(** The posts to scrape taken from a CSV: no post twice, none that is
    already successful, none that already has comments, and every other post
    of the CSV. *)
Theorem post_ids_to_scrape_spec st post_ids existing :
  NoDup (post_ids_to_scrape st post_ids existing)
  /\ forall p, p ∈ post_ids_to_scrape st post_ids existing
       <-> p ∈ post_ids /\ (p ∉ existing) /\ (p ∉ success_post_ids st).
Proof.
  unfold post_ids_to_scrape. split; [apply NoDup_elements|].
  intros p. rewrite elem_of_elements. set_solver.
Qed.

(** X27. With no retry allowed ([max_retries = 0]), [retry_failed_posts]
    attempts nothing: the failed set is cleared and then restored as it
    was, and the successful set is unchanged. *)
Lemma retry_failed_posts_zero batch_size st :
  exists st',
    retry_failed_posts outcome 0 batch_size st = Some st'
    /\ success_post_ids st' = success_post_ids st
    /\ failed_post_ids st' = failed_post_ids st
    /\ attempts st' = attempts st.
Proof.
  unfold retry_failed_posts. case_decide as Hempty; [by exists st|].
  simpl. eexists. split; [done|]. simpl. split_and!; [done | | done].
  rewrite list_to_set_elements_L. set_solver.
Qed.

(** X5. [retry_failed_posts] on any progress, with at least one retry
    allowed: afterwards no post is both successful and failed, no success
    is lost, and every post that was failed is either successful or still
    failed. *)
Theorem retry_failed_posts_separates max_retries batch_size st :
  (0 < max_retries)%nat -> (0 < batch_size)%nat ->
  exists st',
    retry_failed_posts outcome max_retries batch_size st = Some st'
    /\ success_post_ids st ⊆ success_post_ids st'
    /\ success_post_ids st' ∩ failed_post_ids st' = ∅
    /\ failed_post_ids st ⊆ success_post_ids st' ∪ failed_post_ids st'.
Proof.
  intros Hr Hb.
  destruct (retry_failed_posts_spec outcome max_retries batch_size st Hr Hb)
    as (st' & Heq & Hs & Hd & Hc).
  exists st'. split_and!; [done | done | set_solver |].
  intros p Hp. apply elem_of_union. by apply Hc.
Qed.

Lemma process_batch_all_return post_ids : forall st,
  (forall k p, outcome k p <> None) ->
  success_post_ids (process_batch outcome st post_ids)
  = success_post_ids st ∪ list_to_set post_ids
  /\ failed_post_ids (process_batch outcome st post_ids) = failed_post_ids st.
Proof.
  induction post_ids as [|p l IH]; intros st Hret; simpl.
  - split; [set_solver | done].
  - destruct (IH (process_post outcome st p) Hret) as [Hs Hf].
    unfold process_batch in *. simpl. rewrite Hs, Hf.
    unfold process_post. case_decide as Hin; [split; [set_solver | done]|].
    specialize (Hret (attempts st) p).
    destruct (outcome (attempts st) p) as [[|n]|]; [| |done]; simpl;
      (split; [set_solver | done]).
Qed.

(** X6. When every fetch returns (with or without comments),
    [retry_failed_posts] empties the failed set in its first round: all the
    posts that were failed are successful afterwards. *)
Theorem retry_failed_posts_all_return max_retries batch_size st :
  (0 < max_retries)%nat -> (0 < batch_size)%nat ->
  (forall k p, outcome k p <> None) ->
  exists st',
    retry_failed_posts outcome max_retries batch_size st = Some st'
    /\ failed_post_ids st' = ∅
    /\ success_post_ids st' = success_post_ids st ∪ failed_post_ids st.
Proof.
  intros Hr Hb Hret. unfold retry_failed_posts.
  case_decide as Hempty.
  { exists st. rewrite Hempty. split_and!; [done | done | set_solver]. }
  destruct max_retries as [|rounds]; [lia|]. cbn [retry_rounds].
  destruct (elements (failed_post_ids st)) as [|q pending] eqn:Hpending.
  { apply elements_empty_inv in Hpending. apply leibniz_equiv in Hpending. done. }
  rewrite <- Hpending.
  rewrite scrape_comments_for_post_ids_eq by done.
  destruct (process_batch_all_return (elements (failed_post_ids st)) (clear_failed st) Hret)
    as [Hs Hf].
  simpl in Hs, Hf. rewrite Hpending. rewrite <- Hpending.
  rewrite Hf, elements_empty. simpl.
  eexists. split; [done|]. simpl. split; [set_solver|].
  rewrite Hs, list_to_set_elements_L. done.
Qed.

End Passes.

Lemma scrape_skips_successful_witness :
  scrape_comments_for_post_ids always_three 30
    (mkScraper {["42"%string]} ∅ (mkStats 1 1 0 3 0) 1) ["42"%string]
  = Some (mkScraper {["42"%string]} ∅ (mkStats 1 1 0 3 0) 1).
Proof.
  apply (scrape_skips_successful always_three 30
           (mkScraper {["42"%string]} ∅ (mkStats 1 1 0 3 0) 1) ["42"%string]).
  - lia.
  - intros p Hp. apply list_elem_of_singleton in Hp as ->. simpl. set_solver.
Defined.

Lemma retry_failed_posts_separates_witness :
  exists st',
    retry_failed_posts always_three 3 20 resumed = Some st'
    /\ success_post_ids resumed ⊆ success_post_ids st'
    /\ success_post_ids st' ∩ failed_post_ids st' = ∅
    /\ failed_post_ids resumed ⊆ success_post_ids st' ∪ failed_post_ids st'.
Proof.
  apply (retry_failed_posts_separates always_three 3 20 resumed); lia.
Defined.

Lemma retry_failed_posts_all_return_witness :
  exists st',
    retry_failed_posts always_three 3 20 resumed = Some st'
    /\ failed_post_ids st' = ∅
    /\ success_post_ids st' = success_post_ids resumed ∪ failed_post_ids resumed.
Proof.
  apply (retry_failed_posts_all_return always_three 3 20 resumed); [lia | lia | done].
Defined.

End Progress.

(* ===================================================================== *)
(** ** The two retry delays *)
(* ===================================================================== *)

Module Backoff.
Local Open Scope Q_scope.

(** [random.uniform(a, b)] is [a + (b - a) * random()], [random()] in [0, 1):
    the draw [r] is an argument. *)
Definition uniform (a b r : Q) : Q := a + (b - a) * r.

(** *** [WeiboCommentScraper._fetch_comments_with_retry] (comment.py, 244-252) *)

(** [self.min_delay], [self.max_delay], [self.jitter]. *)
Record Delays := mkDelays { min_delay : Q; max_delay : Q; jitter : Q }.

(** The values set by [__init__]. *)
Definition default_delays : Delays :=
  {| min_delay := 3; max_delay := 12; jitter := 1 # 2 |}.

(** [min(self.max_delay, self.min_delay * (2 ** retry))] *)
Definition backoff_delay (d : Delays) (retry : nat) : Q :=
  Qmin (max_delay d) (min_delay d * inject_Z (2 ^ Z.of_nat retry)).

(** [backoff_delay * (1 + random.uniform(-self.jitter, self.jitter))] *)
Definition jitter_delay (d : Delays) (retry : nat) (r : Q) : Q :=
  backoff_delay d retry * (1 + uniform (- jitter d) (jitter d) r).


(** The jitter of [comment.py] as a function of the un-jittered delay. *)
Definition comment_jitter (j : Q) (base r : Q) : Q :=
  base * (1 + uniform (- j) j r).

Lemma jitter_delay_eq d retry r :
  jitter_delay d retry r = comment_jitter (jitter d) (backoff_delay d retry) r.
Proof. reflexivity. Qed.











(** The values of the source: the base delay is 3 s, the first retry waits
    6 s, every later one 12 s, before jitter; the jitter is 50%. *)
Example backoff_delay_values :
  backoff_delay default_delays 0 == 3
  /\ backoff_delay default_delays 1 == 6 /\ backoff_delay default_delays 2 == 12
  /\ backoff_delay default_delays 3 == 12
  /\ jitter default_delays == 1 # 2.
Proof. repeat split. Qed.

(** *** [WeiboCommentScraper._calculate_delay] (comment.py, 419-427) *)

(** [delay = random.uniform(min_delay, min_delay * 1.5)], then
    [delay * (1 + random.uniform(-jitter, jitter))]; [r1] and [r2] are the
    two draws. *)
Definition calculate_delay (d : Delays) (r1 r2 : Q) : Q :=
  uniform (min_delay d) (min_delay d * (3 # 2)) r1
  * (1 + uniform (- jitter d) (jitter d) r2).

(** X7. The pause before each post lies between [min_delay * (1 - jitter)]
    and [1.5 * min_delay * (1 + jitter)]: between 1.5 and 6.75 seconds with
    the values of [__init__]. *)
Theorem calculate_delay_bounds (d : Delays) (r1 r2 : Q) :
  0 <= min_delay d -> 0 <= jitter d <= 1 -> 0 <= r1 <= 1 -> 0 <= r2 <= 1 ->
  min_delay d * (1 - jitter d) <= calculate_delay d r1 r2
  /\ calculate_delay d r1 r2 <= min_delay d * (3 # 2) * (1 + jitter d).
Proof.
  intros Hmin [Hj0 Hj1] [Hr10 Hr11] [Hr20 Hr21].
  unfold calculate_delay, uniform.
  set (m := min_delay d) in *. set (j := jitter d) in *.
  assert (Hbase : m <= m + (m * (3 # 2) - m) * r1 <= m * (3 # 2)) by nra.
  assert (Hfac : 1 - j <= 1 + (- j + (j - - j) * r2) <= 1 + j) by nra.
  split; nra.
Qed.

Lemma calculate_delay_bounds_witness :
  min_delay default_delays * (1 - jitter default_delays)
    <= calculate_delay default_delays (1 # 2) (1 # 4)
  /\ calculate_delay default_delays (1 # 2) (1 # 4)
     <= min_delay default_delays * (3 # 2) * (1 + jitter default_delays).
Proof.
  apply (calculate_delay_bounds default_delays (1 # 2) (1 # 4));
    try split; by vm_compute.
Defined.

End Backoff.

(* ===================================================================== *)
(** ** multiaccountweiboscraper.py : the account pool *)
(* ===================================================================== *)

Module Identity.

(** [WeiboAccount] (lines 35-65); the browser handles are left out. *)
Record WeiboAccount := mkAccount {
  username : string;
  is_logged_in : bool;
  last_used_time : Z;
  request_count : Z;
  error_count : Z;
  cooldown_until : Z
}.

(** [time.time() < self.cooldown_until] *)
Definition is_in_cooldown (now : Z) (acc : WeiboAccount) : bool :=
  now <? cooldown_until acc.

(** [self.cooldown_until = time.time() + (minutes * 60)] *)
Definition set_cooldown (now minutes : Z) (acc : WeiboAccount) : WeiboAccount :=
  {| username := username acc;
     is_logged_in := is_logged_in acc;
     last_used_time := last_used_time acc;
     request_count := request_count acc;
     error_count := error_count acc;
     cooldown_until := now + minutes * 60 |}.

(** [account.last_used_time = utils.get_current_timestamp()],
    [account.request_count += 1] *)
Definition mark_rotated (current_timestamp : Z) (acc : WeiboAccount) : WeiboAccount :=
  {| username := username acc;
     is_logged_in := is_logged_in acc;
     last_used_time := current_timestamp;
     request_count := request_count acc + 1;
     error_count := error_count acc;
     cooldown_until := cooldown_until acc |}.

(** Comparison of the sort key
    [(acc.error_count, acc.last_used_time, acc.request_count)]: tuples are
    compared lexicographically. *)
Definition key_leb (a b : WeiboAccount) : bool :=
  (error_count a <? error_count b)
  || ((error_count a =? error_count b)
      && ((last_used_time a <? last_used_time b)
          || ((last_used_time a =? last_used_time b)
              && (request_count a <=? request_count b)))).

Definition cooldown_leb (a b : WeiboAccount) : bool :=
  cooldown_until a <=? cooldown_until b.

Definition is_active (now : Z) (entry : nat * WeiboAccount) : bool :=
  is_logged_in entry.2 && negb (is_in_cooldown now entry.2).

Definition is_cooling (now : Z) (entry : nat * WeiboAccount) : bool :=
  is_logged_in entry.2 && is_in_cooldown now entry.2.

Inductive rotation :=
| Rotated (index : nat) (accounts : list WeiboAccount)
    (* [return account], the object at [index], the pool after the update *)
| NoActiveAccounts
    (* [raise Exception("No active accounts available for rotation")] *)
| WaitsForLock
    (* suspended in [async with self.account_lock] on a lock that is never
       released *)
| OutOfFuel.

(** [rotate_account] (lines 392-425).  [locked] is the state of
    [self.account_lock] when the call is made.  [asyncio.Lock] is not
    reentrant: entering [async with self.account_lock] while the lock is held
    suspends the caller until the holder releases it.  The retry after the
    sleep is awaited inside the [async with] block, that is, with the lock
    still held by the waiting caller itself. *)
Fixpoint rotate_account (fuel : nat) (locked : bool)
    (accounts : list WeiboAccount) (now current_timestamp : Z) : rotation :=
  match fuel with
  | O => OutOfFuel
  | S fuel' =>
      if locked then WaitsForLock
      else
        (* the lock is held from here on *)
        match List.filter (is_active now) (indexed accounts) with
        | [] =>
            match stable_sort (fun a b => cooldown_leb a.2 b.2)
                    (List.filter (is_cooling now) (indexed accounts)) with
            | next_available :: _ =>
                let wait_time := Z.max 0 (cooldown_until next_available.2 - now) in
                (* [await asyncio.sleep(wait_time + 1)] *)
                rotate_account fuel' true accounts (now + (wait_time + 1)) current_timestamp
            | [] => NoActiveAccounts
            end
        | active_accounts =>
            match stable_sort (fun a b => key_leb a.2 b.2) active_accounts with
            | (index, account) :: _ =>
                Rotated index (<[index := mark_rotated current_timestamp account]> accounts)
            | [] => NoActiveAccounts   (* not reached: the list is not empty *)
            end
        end
  end.

(** *** Selection *)

Lemma key_leb_total a b : key_leb a b = true \/ key_leb b a = true.
Proof.
  unfold key_leb.
  destruct (Z.ltb_spec (error_count a) (error_count b)),
           (Z.ltb_spec (error_count b) (error_count a)),
           (Z.eqb_spec (error_count a) (error_count b)),
           (Z.eqb_spec (error_count b) (error_count a)),
           (Z.ltb_spec (last_used_time a) (last_used_time b)),
           (Z.ltb_spec (last_used_time b) (last_used_time a)),
           (Z.eqb_spec (last_used_time a) (last_used_time b)),
           (Z.eqb_spec (last_used_time b) (last_used_time a)),
           (Z.leb_spec (request_count a) (request_count b)),
           (Z.leb_spec (request_count b) (request_count a));
    simpl; auto; lia.
Qed.

Lemma key_leb_trans a b c :
  key_leb a b = true -> key_leb b c = true -> key_leb a c = true.
Proof.
  unfold key_leb.
  destruct (Z.ltb_spec (error_count a) (error_count b)),
           (Z.ltb_spec (error_count b) (error_count c)),
           (Z.ltb_spec (error_count a) (error_count c)),
           (Z.eqb_spec (error_count a) (error_count b)),
           (Z.eqb_spec (error_count b) (error_count c)),
           (Z.eqb_spec (error_count a) (error_count c)),
           (Z.ltb_spec (last_used_time a) (last_used_time b)),
           (Z.ltb_spec (last_used_time b) (last_used_time c)),
           (Z.ltb_spec (last_used_time a) (last_used_time c)),
           (Z.eqb_spec (last_used_time a) (last_used_time b)),
           (Z.eqb_spec (last_used_time b) (last_used_time c)),
           (Z.eqb_spec (last_used_time a) (last_used_time c)),
           (Z.leb_spec (request_count a) (request_count b)),
           (Z.leb_spec (request_count b) (request_count c)),
           (Z.leb_spec (request_count a) (request_count c));
    simpl; try done; lia.
Qed.

(** A call made while the lock is held never selects. *)
Lemma rotate_account_locked fuel accounts now ts :
  rotate_account fuel true accounts now ts = WaitsForLock
  \/ rotate_account fuel true accounts now ts = OutOfFuel.
Proof. destruct fuel; simpl; auto. Qed.

(** What a successful selection returns. *)
Lemma rotate_account_Rotated fuel locked accounts now ts index accounts' :
  rotate_account fuel locked accounts now ts = Rotated index accounts' ->
  exists account rest,
    locked = false
    /\ stable_sort (fun a b => key_leb a.2 b.2)
         (List.filter (is_active now) (indexed accounts)) = (index, account) :: rest
    /\ accounts' = <[index := mark_rotated ts account]> accounts.
Proof.
  destruct fuel as [|fuel]; simpl; [done|].
  destruct locked; [done|].
  destruct (List.filter (is_active now) (indexed accounts)) as [|e active] eqn:Hactive.
  - destruct (stable_sort _ _) as [|next rest]; [done|].
    destruct (rotate_account_locked fuel accounts
                (now + (Z.max 0 (cooldown_until next.2 - now) + 1)) ts) as [-> | ->]; done.
  - destruct (stable_sort _ (e :: active)) as [|[i account] rest] eqn:Hsort; [done|].
    intros [= <- <-]. by exists account, rest.
Qed.

(** C2. Whenever [rotate_account] returns an account, that account is logged
    in and its [cooldown_until] is not in the future at the time of the
    selection: an account in cooldown is never returned. *)
Theorem rotate_account_never_in_cooldown fuel locked accounts now ts index accounts' :
  rotate_account fuel locked accounts now ts = Rotated index accounts' ->
  exists account,
    accounts !! index = Some account
    /\ is_logged_in account = true
    /\ is_in_cooldown now account = false
    /\ cooldown_until account <= now.
Proof.
  intros H. apply rotate_account_Rotated in H as (account & rest & _ & Hsort & _).
  assert (Hin : In (index, account) (List.filter (is_active now) (indexed accounts))).
  { eapply stable_sort_In. rewrite Hsort. by left. }
  apply filter_In in Hin as [Hin Hact].
  apply indexed_In in Hin. unfold is_active in Hact. simpl in Hact.
  apply andb_true_iff in Hact as [Hlog Hcool]. apply negb_true_iff in Hcool.
  exists account. split_and!; try done.
  unfold is_in_cooldown in Hcool. by apply Z.ltb_ge in Hcool.
Qed.

(** A pool of three accounts at time 1000: the first is logged out, the
    second in cooldown until 1500, the third free. *)
Definition sample_pool : list WeiboAccount :=
  [ mkAccount "a" false 0 0 0 0;
    mkAccount "b" true 10 4 1 1500;
    mkAccount "c" true 20 7 2 900 ].

Lemma rotate_account_never_in_cooldown_witness :
  exists account,
    sample_pool !! 2%nat = Some account
    /\ is_logged_in account = true
    /\ is_in_cooldown 1000 account = false
    /\ cooldown_until account <= 1000.
Proof.
  apply (rotate_account_never_in_cooldown 3 false sample_pool 1000 1000000 2
           (<[2%nat := mark_rotated 1000000 (mkAccount "c" true 20 7 2 900)]> sample_pool)).
  reflexivity.
Defined.

(** First case of [select()]: some logged-in account is out of cooldown.
    The account returned has the least key
    [(error_count, last_used_time, request_count)] among those. *)
Lemma rotate_account_selects_least fuel accounts now ts :
  (exists i acc, accounts !! i = Some acc /\ is_active now (i, acc) = true) ->
  exists index account,
    rotate_account (S fuel) false accounts now ts
      = Rotated index (<[index := mark_rotated ts account]> accounts)
    /\ accounts !! index = Some account
    /\ is_active now (index, account) = true
    /\ forall j other, accounts !! j = Some other -> is_active now (j, other) = true ->
         key_leb account other = true.
Proof.
  intros (i & acc & Hi & Hact). simpl.
  assert (Hin : In (i, acc) (List.filter (is_active now) (indexed accounts))).
  { apply filter_In. split; [by apply indexed_In | done]. }
  destruct (List.filter (is_active now) (indexed accounts)) as [|e active] eqn:Hactive; [done|].
  rewrite <- Hactive in *.
  destruct (stable_sort (fun a b => key_leb a.2 b.2)
              (List.filter (is_active now) (indexed accounts)))
    as [|[index account] rest] eqn:Hsort.
  { apply stable_sort_nil in Hsort. rewrite Hsort in Hin. done. }
  apply stable_sort_head_min in Hsort as [Hhead Hmin].
  - apply filter_In in Hhead as [Hhead Hhead_act]. apply indexed_In in Hhead.
    exists index, account. split_and!; try done.
    intros j other Hj Hother.
    apply (Hmin (j, other)). apply filter_In. split; [by apply indexed_In | done].
  - intros a b. apply key_leb_total.
  - intros a b c. apply key_leb_trans.
Qed.

(** Third case of [select()]: no account is logged in.  The call raises at
    once, without sleeping or retrying. *)
Lemma rotate_account_no_healthy fuel accounts now ts :
  (forall i acc, accounts !! i = Some acc -> is_logged_in acc = false) ->
  rotate_account (S fuel) false accounts now ts = NoActiveAccounts.
Proof.
  intros Hnone. simpl.
  assert (Hempty : forall f : nat * WeiboAccount -> bool,
            (forall e, f e = true -> is_logged_in e.2 = true) ->
            List.filter f (indexed accounts) = []).
  { intros f Hf. destruct (List.filter f (indexed accounts)) as [|[i acc] l] eqn:Heq; [done|].
    assert (Hin : In (i, acc) (List.filter f (indexed accounts))) by (rewrite Heq; by left).
    apply filter_In in Hin as [Hin Hfe]. apply indexed_In in Hin.
    apply Hf in Hfe. simpl in Hfe. rewrite (Hnone i acc Hin) in Hfe. done. }
  rewrite (Hempty (is_active now)), (Hempty (is_cooling now)); [done|..];
    intros e He; unfold is_active, is_cooling in He; by apply andb_true_iff in He as [? _].
Qed.

(** C3, second case of [select()]: every logged-in account is in cooldown.
    The code sleeps until the earliest [cooldown_until] plus one second and
    then awaits [self.rotate_account()] again, but it does so while it still
    holds [account_lock]: the retried selection never gets past
    [async with self.account_lock], and the call never returns an account. *)
Theorem rotate_account_retry_waits_for_own_lock fuel accounts now ts :
  (exists i acc, accounts !! i = Some acc /\ is_logged_in acc = true) ->
  (forall i acc, accounts !! i = Some acc -> is_logged_in acc = true ->
     is_in_cooldown now acc = true) ->
  rotate_account (S (S fuel)) false accounts now ts = WaitsForLock.
Proof.
  intros (i & acc & Hi & Hlog) Hcool.
  cbn [rotate_account].
  destruct (List.filter (is_active now) (indexed accounts)) as [|[j other] l] eqn:Hactive.
  - assert (Hin : In (i, acc) (List.filter (is_cooling now) (indexed accounts))).
    { apply filter_In. split; [by apply indexed_In|].
      unfold is_cooling. simpl. rewrite Hlog. simpl. eauto. }
    destruct (stable_sort _ (List.filter (is_cooling now) (indexed accounts)))
      as [|next rest] eqn:Hsort; [|done].
    apply stable_sort_nil in Hsort. rewrite Hsort in Hin. done.
  - assert (Hin : In (j, other) (List.filter (is_active now) (indexed accounts)))
      by (rewrite Hactive; by left).
    apply filter_In in Hin as [Hin Hact]. apply indexed_In in Hin.
    unfold is_active in Hact. simpl in Hact.
    apply andb_true_iff in Hact as [Hl Hc]. apply negb_true_iff in Hc.
    rewrite (Hcool j other Hin Hl) in Hc. done.
Qed.

(** One logged-in account, in cooldown until 1500, at time 1000. *)
Definition cooling_pool : list WeiboAccount := [ mkAccount "b" true 10 4 1 1500 ].

Lemma rotate_account_retry_waits_for_own_lock_witness :
  rotate_account 2 false cooling_pool 1000 1000000 = WaitsForLock.
Proof.
  apply (rotate_account_retry_waits_for_own_lock 0 cooling_pool 1000 1000000).
  - exists 0%nat, (mkAccount "b" true 10 4 1 1500). split; reflexivity.
  - intros [|i] acc Hacc Hlog; [|done]. simpl in Hacc. injection Hacc as <-. reflexivity.
Defined.

(** *** More about the rotation *)

(** X12. What a rotation changes: the account returned gets the current
    timestamp and one more request, its error count, cooldown and login
    state stay as they were, and every other account of the pool is left
    untouched. *)
Theorem rotate_account_frame fuel locked accounts now ts index accounts' :
  rotate_account fuel locked accounts now ts = Rotated index accounts' ->
  exists account,
    accounts !! index = Some account
    /\ accounts' !! index
       = Some (mkAccount (username account) (is_logged_in account) ts
                 (request_count account + 1) (error_count account)
                 (cooldown_until account))
    /\ length accounts' = length accounts
    /\ forall j, j <> index -> accounts' !! j = accounts !! j.
Proof.
  intros H. apply rotate_account_Rotated in H as (account & rest & _ & Hsort & ->).
  assert (Hin : In (index, account) (List.filter (is_active now) (indexed accounts))).
  { eapply stable_sort_In. rewrite Hsort. by left. }
  apply filter_In in Hin as [Hin _]. apply indexed_In in Hin.
  exists account. split_and!.
  - done.
  - rewrite list_lookup_insert_eq; [done|]. by eapply lookup_lt_Some.
  - by rewrite length_insert.
  - intros j Hj. by rewrite list_lookup_insert_ne.
Qed.

Lemma rotate_account_frame_witness :
  exists account,
    sample_pool !! 2%nat = Some account
    /\ (<[2%nat := mark_rotated 1000000 (mkAccount "c" true 20 7 2 900)]> sample_pool) !! 2%nat
       = Some (mkAccount (username account) (is_logged_in account) 1000000
                 (request_count account + 1) (error_count account)
                 (cooldown_until account))
    /\ length (<[2%nat := mark_rotated 1000000 (mkAccount "c" true 20 7 2 900)]> sample_pool)
       = length sample_pool
    /\ forall j, j <> 2%nat ->
         (<[2%nat := mark_rotated 1000000 (mkAccount "c" true 20 7 2 900)]> sample_pool) !! j
         = sample_pool !! j.
Proof.
  apply (rotate_account_frame 3 false sample_pool 1000 1000000 2
           (<[2%nat := mark_rotated 1000000 (mkAccount "c" true 20 7 2 900)]> sample_pool)).
  reflexivity.
Defined.

(** X15. Ties are broken by position: the sort is stable, so every free
    logged-in account that stands before the returned one in
    [self.accounts] has a strictly greater key
    [(error_count, last_used_time, request_count)].  Among accounts with
    the same least key the first of the pool is returned. *)
Theorem rotate_account_first_of_equals fuel locked accounts now ts index accounts' :
  rotate_account fuel locked accounts now ts = Rotated index accounts' ->
  exists account,
    accounts !! index = Some account
    /\ forall j other,
         (j < index)%nat -> accounts !! j = Some other ->
         is_active now (j, other) = true ->
         key_leb other account = false /\ key_leb account other = true.
Proof.
  intros H. apply rotate_account_Rotated in H as (account & rest & _ & Hsort & _).
  assert (Hin : In (index, account) (List.filter (is_active now) (indexed accounts))).
  { eapply stable_sort_In. rewrite Hsort. by left. }
  apply filter_In in Hin as [Hin _]. apply indexed_In in Hin.
  exists account. split; [done|]. intros j other Hj Hother Hact.
  apply stable_sort_head_first in Hsort as (p1 & p2 & Heq & Hp1 & _).
  - assert (Hmem : In (j, other) (List.filter (is_active now) (indexed accounts))).
    { apply filter_In. split; [by apply indexed_In | done]. }
    pose proof (filter_indexed_before _ _ _ _ _ Heq) as [_ Hafter].
    rewrite Heq in Hmem. apply in_app_or in Hmem as [Hmem|[Hmem|Hmem]].
    + pose proof (Hp1 _ Hmem) as Hlt. simpl in Hlt. split; [done|].
      destruct (key_leb_total account other) as [Hle|Hle]; [done | congruence].
    + injection Hmem as -> _. lia.
    + apply Hafter in Hmem. simpl in Hmem. lia.
  - intros a b. apply key_leb_total.
  - intros a b c. apply key_leb_trans.
Qed.

(** Two free accounts with the same key: the first one is returned. *)
Definition equal_pool : list WeiboAccount :=
  [ mkAccount "a" true 5 1 0 0;
    mkAccount "b" true 5 1 0 0;
    mkAccount "c" true 3 1 0 0;
    mkAccount "d" true 3 1 0 0 ].

Lemma rotate_account_first_of_equals_witness :
  exists account,
    equal_pool !! 2%nat = Some account
    /\ forall j other,
         (j < 2)%nat -> equal_pool !! j = Some other ->
         is_active 1000 (j, other) = true ->
         key_leb other account = false /\ key_leb account other = true.
Proof.
  apply (rotate_account_first_of_equals 1 false equal_pool 1000 7 2
           (<[2%nat := mark_rotated 7 (mkAccount "c" true 3 1 0 0)]> equal_pool)).
  reflexivity.
Defined.

(** *** [MultiAccountWeiboScraper.rotate_account] (lines 922-938) *)

Definition last_used_leb (a b : WeiboAccount) : bool :=
  last_used_time a <=? last_used_time b.

Definition mark_last_used (current_timestamp : Z) (acc : WeiboAccount) : WeiboAccount :=
  {| username := username acc;
     is_logged_in := is_logged_in acc;
     last_used_time := current_timestamp;
     request_count := request_count acc;
     error_count := error_count acc;
     cooldown_until := cooldown_until acc |}.

(** The rotation of the plain scraper: the logged-in account used least
    recently; [None] is the exception "No active accounts available for
    rotation".  There is no lock and no cooldown here. *)
Definition rotate_account_plain (accounts : list WeiboAccount) (current_timestamp : Z)
  : option (nat * list WeiboAccount) :=
  match List.filter (fun e : nat * WeiboAccount => is_logged_in e.2) (indexed accounts) with
  | [] => None
  | active_accounts =>
      match stable_sort (fun a b => last_used_leb a.2 b.2) active_accounts with
      | (index, account) :: _ =>
          Some (index, <[index := mark_last_used current_timestamp account]> accounts)
      | [] => None      (* not reached: the list is not empty *)
      end
  end.

(** X13. The plain rotation raises exactly when no account is logged in;
    otherwise it returns a logged-in account whose [last_used_time] is the
    least among the logged-in accounts, and stamps it with the current
    time.  An account in cooldown can be returned. *)
Theorem rotate_account_plain_spec accounts ts :
  match rotate_account_plain accounts ts with
  | None => forall i acc, accounts !! i = Some acc -> is_logged_in acc = false
  | Some (index, accounts') =>
      exists account,
        accounts !! index = Some account
        /\ is_logged_in account = true
        /\ (forall j other, accounts !! j = Some other -> is_logged_in other = true ->
              last_used_time account <= last_used_time other)
        /\ accounts' = <[index := mark_last_used ts account]> accounts
  end.
Proof.
  unfold rotate_account_plain.
  destruct (List.filter (fun e : nat * WeiboAccount => is_logged_in e.2) (indexed accounts))
    as [|e active] eqn:Hactive.
  - intros i acc Hi. apply not_true_is_false. intros Hlog.
    assert (Hin : In (i, acc)
              (List.filter (fun e : nat * WeiboAccount => is_logged_in e.2) (indexed accounts))).
    { apply filter_In. split; [by apply indexed_In | done]. }
    rewrite Hactive in Hin. done.
  - rewrite <- Hactive.
    destruct (stable_sort _ _) as [|[index account] rest] eqn:Hsort.
    { apply stable_sort_nil in Hsort. rewrite Hactive in Hsort. done. }
    apply stable_sort_head_min in Hsort as [Hhead Hmin].
    + apply filter_In in Hhead as [Hhead Hlog]. apply indexed_In in Hhead.
      exists account. split_and!; try done.
      intros j other Hj Hother.
      assert (Hle : last_used_leb account other = true).
      { apply (Hmin (j, other)). apply filter_In. split; [by apply indexed_In | done]. }
      unfold last_used_leb in Hle. by apply Z.leb_le in Hle.
    + intros a b. unfold last_used_leb.
      destruct (Z.leb_spec (last_used_time a.2) (last_used_time b.2));
        destruct (Z.leb_spec (last_used_time b.2) (last_used_time a.2)); auto; lia.
    + intros a b c. unfold last_used_leb. rewrite !Z.leb_le. lia.
Qed.

(** In [sample_pool] at time 1000 the account "b" is in cooldown until 1500
    and still the one the plain rotation returns. *)
Example rotate_account_plain_ignores_cooldown :
  rotate_account_plain sample_pool 1000000
  = Some (1%nat, <[1%nat := mkAccount "b" true 1000000 4 1 1500]> sample_pool).
Proof. reflexivity. Qed.

(** *** [CommentScrapingStats] (lines 68-112) *)

Record CommentScrapingStats := mkStats {
  total_posts_processed : Z;
  successful_posts : Z;
  failed_posts : Z;
  total_comments_scraped : Z;
  empty_posts : Z;
  rate_limited_posts : Z
}.

(** [__init__]: every counter 0. *)
Definition new_stats : CommentScrapingStats := mkStats 0 0 0 0 0 0.

Definition add_success (comment_count : Z) (s : CommentScrapingStats)
  : CommentScrapingStats :=
  {| total_posts_processed := total_posts_processed s + 1;
     successful_posts := successful_posts s + 1;
     failed_posts := failed_posts s;
     total_comments_scraped := total_comments_scraped s + comment_count;
     empty_posts := empty_posts s;
     rate_limited_posts := rate_limited_posts s |}.

(** [add_failure(error_type=None)] *)
Definition add_failure (error_type : option string) (s : CommentScrapingStats)
  : CommentScrapingStats :=
  {| total_posts_processed := total_posts_processed s + 1;
     successful_posts := successful_posts s;
     failed_posts := failed_posts s + 1;
     total_comments_scraped := total_comments_scraped s;
     empty_posts :=
       if decide (error_type = Some "empty"%string)
       then empty_posts s + 1 else empty_posts s;
     rate_limited_posts :=
       if decide (error_type = Some "empty"%string) then rate_limited_posts s
       else if decide (error_type = Some "rate_limited"%string)
            then rate_limited_posts s + 1 else rate_limited_posts s |}.

(** A call on the statistics. *)
Inductive stats_call :=
| AddSuccess (comment_count : Z)
| AddFailure (error_type : option string).

Definition record_call (s : CommentScrapingStats) (c : stats_call) : CommentScrapingStats :=
  match c with
  | AddSuccess n => add_success n s
  | AddFailure t => add_failure t s
  end.

(** X14. Whatever calls are made on fresh statistics, the counters stay
    consistent: every call counts one processed post, the processed posts
    are the successful plus the failed ones, and the empty and rate-limited
    posts together never exceed the failed ones. *)
Theorem stats_consistent (calls : list stats_call) :
  let s := foldl record_call new_stats calls in
  total_posts_processed s = Z.of_nat (length calls)
  /\ total_posts_processed s = successful_posts s + failed_posts s
  /\ 0 <= empty_posts s /\ 0 <= rate_limited_posts s
  /\ empty_posts s + rate_limited_posts s <= failed_posts s.
Proof.
  cbv zeta.
  assert (Hgen : forall s0 n,
    total_posts_processed s0 = n
    /\ total_posts_processed s0 = successful_posts s0 + failed_posts s0
    /\ 0 <= empty_posts s0 /\ 0 <= rate_limited_posts s0
    /\ empty_posts s0 + rate_limited_posts s0 <= failed_posts s0 ->
    let s := foldl record_call s0 calls in
    total_posts_processed s = n + Z.of_nat (length calls)
    /\ total_posts_processed s = successful_posts s + failed_posts s
    /\ 0 <= empty_posts s /\ 0 <= rate_limited_posts s
    /\ empty_posts s + rate_limited_posts s <= failed_posts s).
  { induction calls as [|c calls IH]; intros s0 n Hinv; cbv zeta.
    - simpl. destruct Hinv as (? & ? & ? & ? & ?). split_and!; try done; lia.
    - cbn [foldl]. rewrite length_cons, Nat2Z.inj_succ.
      destruct (IH (record_call s0 c) (n + 1)) as (H1 & H2 & H3 & H4 & H5).
      { destruct Hinv as (? & ? & ? & ? & ?).
        destruct c as [k|t]; simpl; [lia|].
        repeat case_decide; lia. }
      split_and!; try done; lia. }
  apply (Hgen new_stats 0). simpl. lia.
Qed.

(** *** [EnhancedWeiboScraper.batch_get_comments] (lines 570-705) *)

(** What the comment fetching of [EnhancedWeiboScraper] reads and writes. *)
Record EnhancedWeiboScraper := mkScraper {
  accounts : list WeiboAccount;
  processed_comments : gset string;
  stats : CommentScrapingStats
}.

(** What the method returns: a list of comments, or [None] when the body
    ends without a [return]. *)
Inductive returned :=
| ReturnsList (comments : list string)
| ReturnsNone.

(** The method as it is written.  With no post it returns [[]].  Otherwise
    the body creates the semaphore, defines the coroutine function
    [fetch_comments] (lines 581-705) and ends there: no task is made from
    [fetch_comments] and nothing awaits it, so none of its statements runs,
    whatever the client [get_note_all_comments] would answer for a post
    (the comments, or the message of the exception).  The exception
    handlers that call [account.set_cooldown] (lines 679 and 686) and count
    the errors are inside [fetch_comments]. *)
Definition batch_get_comments
    (get_note_all_comments : string -> list string + string) (now : Z)
    (scraper : EnhancedWeiboScraper) (post_ids : list string)
    (max_comments concurrency : Z) (with_retry : bool)
  : returned * EnhancedWeiboScraper :=
  match post_ids with
  | [] => (ReturnsList [], scraper)
  | _ :: _ => (ReturnsNone, scraper)
  end.

(** C8.  The handlers of the nested [fetch_comments] are written to put an
    account in cooldown after a block signal (20 minutes for status 412 or
    403) without logging it out, but [batch_get_comments] never runs
    [fetch_comments].  Whatever the client answers, block signals included,
    a call of [batch_get_comments] leaves every account as it was (no
    [cooldown_until] is set and no error is counted), marks no post as
    processed, records no statistics, and returns [None] for a non-empty
    list of posts. *)
Theorem batch_get_comments_sets_no_cooldown
    get_note_all_comments now scraper post_ids max_comments concurrency with_retry :
  let r := batch_get_comments get_note_all_comments now scraper post_ids
             max_comments concurrency with_retry in
  r.2 = scraper
  /\ (forall i account, accounts scraper !! i = Some account ->
        exists account',
          accounts r.2 !! i = Some account'
          /\ cooldown_until account' = cooldown_until account
          /\ error_count account' = error_count account
          /\ is_logged_in account' = is_logged_in account)
  /\ r.1 = match post_ids with [] => ReturnsList [] | _ :: _ => ReturnsNone end.
Proof.
  cbv zeta. destruct post_ids as [|post_id post_ids]; simpl.
  - split_and!; [done | | done]. intros i account Hi. by exists account.
  - split_and!; [done | | done]. intros i account Hi. by exists account.
Qed.

(** One logged-in account that is not in cooldown, at time 1000, and a
    client that answers every request with status 412.  After the call the
    account is still out of cooldown; [set_cooldown(minutes=20)] would have
    set [cooldown_until] to 2200. *)
Definition blocked_client (post_id : string) : list string + string :=
  inr "412 Precondition Failed"%string.

Definition one_account : EnhancedWeiboScraper :=
  mkScraper [mkAccount "a" true 0 0 0 0] ∅ new_stats.

Example batch_get_comments_blocked :
  batch_get_comments blocked_client 1000 one_account ["42"%string] 100 3 true
  = (ReturnsNone, one_account)
  /\ List.map cooldown_until
       (accounts (batch_get_comments blocked_client 1000 one_account
                    ["42"%string] 100 3 true).2) = [0]
  /\ cooldown_until (set_cooldown 1000 20 (mkAccount "a" true 0 0 0 0)) = 2200.
Proof. split_and!; reflexivity. Qed.


End Identity.

(* ===================================================================== *)
(** ** media_platform/weibo/core.py : the handlers of [get_note_comments] *)
(* ===================================================================== *)

Module Crawler.

(** The three counters of [WeiboCrawler].  They are attributes created on
    first use ([getattr(self, ..., 0)], [hasattr]): [None] is "not set yet". *)
Record WeiboCrawler := mkCrawler {
  timeout_count : option Z;
  success_after_timeout : option Z;
  block_count : option Z
}.

(** A crawler as [__init__] leaves it. *)
Definition fresh : WeiboCrawler := mkCrawler None None None.

(** What [get_note_all_comments] can raise, by the [except] clause that
    catches it. *)
Inductive exn :=
| DataFetchError (msg : string)
| ReadTimeout
| ConnectTimeout
| ConnectError
| OtherException (msg : string).

(** What a handler does besides logging.  [FlushProgress] stands for a write
    of saved progress; no handler of [get_note_comments] performs one. *)
Inductive effect :=
| Sleep (seconds : Z)       (* [time.sleep(seconds)] *)
| Exit (code : Z)           (* [sys.exit(code)] *)
| FlushProgress.

(** [str.lower()] on the ASCII letters; the other bytes are left as they are
    (the indicators that are not ASCII are Chinese and have no case). *)
Definition lower_ascii (c : Ascii.ascii) : Ascii.ascii :=
  let n := Ascii.nat_of_ascii c in
  if (65 <=? n)%nat && (n <=? 90)%nat then Ascii.ascii_of_nat (n + 32) else c.

Fixpoint lower (s : string) : string :=
  match s with
  | EmptyString => EmptyString
  | String c s' => String (lower_ascii c) (lower s')
  end.

Definition block_indicators : list string :=
  [ "expecting value: line 1 column 1 (char 0)";
    "访问频率过高"; "请求过于频繁"; "need login"; "访问受限";
    "请求被拒绝"; "操作太频繁"; "无权限"; "请登录"; "412"; "403";
    "empty response"; "invalid json" ]%string.

(** [any(indicator.lower() in error_str for indicator in block_indicators)]
    with [error_str = str(e).lower()] *)
Definition is_block (msg : string) : bool :=
  existsb (fun indicator => contains (lower indicator) (lower msg)) block_indicators.

(** The handler of [(ReadTimeout, ConnectTimeout, ConnectError)]
    (lines 270-298). *)
Definition on_timeout (c : WeiboCrawler) : WeiboCrawler * list effect :=
  let timeout_count1 := default 0 (timeout_count c) + 1 in
  let retry_seconds := Z.min (10 * timeout_count1) 120 in
  let '(success2, timeout_count2) :=
    match success_after_timeout c with
    | Some s =>
        let s' := s + 1 in
        (s', if 3 <=? s' then 0 else timeout_count1)
    | None => (0, timeout_count1)
    end in
  if 15 <=? timeout_count2 then
    ({| timeout_count := Some (timeout_count2 / 2);
        success_after_timeout := Some success2;
        block_count := block_count c |},
     [Sleep retry_seconds; Sleep 300])
  else
    ({| timeout_count := Some timeout_count2;
        success_after_timeout := Some success2;
        block_count := block_count c |},
     [Sleep retry_seconds]).

(** The handler of every other [Exception] (lines 299-330). *)
Definition on_other (c : WeiboCrawler) (msg : string) : WeiboCrawler * list effect :=
  if is_block msg then
    let block_count1 := default 0 (block_count c) + 1 in
    ({| timeout_count := timeout_count c;
        success_after_timeout := success_after_timeout c;
        block_count := Some block_count1 |},
     if 6 <=? block_count1 then [Exit 1] else [Sleep 60])
  else (c, [Sleep 2]).

(** [get_note_comments] (lines 250-330) for one note: [None] when
    [get_note_all_comments] returns, [Some e] when it raises [e]. *)
Definition get_note_comments (c : WeiboCrawler) (outcome : option exn)
  : WeiboCrawler * list effect :=
  match outcome with
  | None => (c, [])
  | Some (DataFetchError _) => (c, [Sleep 5])
  | Some ReadTimeout | Some ConnectTimeout | Some ConnectError => on_timeout c
  | Some (OtherException msg) => on_other c msg
  end.

Definition is_exit (e : effect) : bool :=
  match e with Exit _ => true | _ => false end.

(** [batch_get_notes_comments] (lines 232-248): the notes one after the
    other, the outcome of each given by the list.  [sys.exit] ends the
    process: the notes that follow are not handled. *)
Fixpoint batch_get_notes_comments (c : WeiboCrawler) (outcomes : list (option exn))
  : WeiboCrawler * list effect :=
  match outcomes with
  | [] => (c, [])
  | outcome :: rest =>
      let '(c1, effects1) := get_note_comments c outcome in
      if existsb is_exit effects1 then (c1, effects1)
      else
        let '(c2, effects2) := batch_get_notes_comments c1 rest in
        (c2, effects1 ++ effects2)
  end.

(** Every [sys.exit] of the trace comes after a flush of the progress. *)
Definition flushed_before_exit (effects : list effect) : Prop :=
  forall before code after,
    effects = before ++ Exit code :: after -> In FlushProgress before.

(** *** Block events *)

Example is_block_examples :
  is_block "HTTP 403 Forbidden" = true
  /\ is_block "Expecting value: line 1 column 1 (char 0)" = true
  /\ is_block "请求过于频繁" = true
  /\ is_block "list index out of range" = false.
Proof. repeat split. Qed.

Definition with_block_count (c : WeiboCrawler) (n : Z) : WeiboCrawler :=
  {| timeout_count := timeout_count c;
     success_after_timeout := success_after_timeout c;
     block_count := Some n |}.

(** C6, as the code has it.  Every block event adds one to [block_count].
    While the count stays below 6 the handler sleeps 60 seconds and the batch
    goes on with the next note; at the block event that brings the count to
    6 the handler calls [sys.exit(1)] at once: no later note is handled, and
    nothing is slept, saved or flushed before the exit. *)
Theorem block_ceiling_exits_at_once c msg rest :
  is_block msg = true ->
  batch_get_notes_comments c (Some (OtherException msg) :: rest)
  = if 6 <=? default 0 (block_count c) + 1
    then (with_block_count c (default 0 (block_count c) + 1), [Exit 1])
    else
      ((batch_get_notes_comments
          (with_block_count c (default 0 (block_count c) + 1)) rest).1,
       Sleep 60 ::
       (batch_get_notes_comments
          (with_block_count c (default 0 (block_count c) + 1)) rest).2).
Proof.
  intros Hblock. simpl. unfold on_other. rewrite Hblock.
  fold (with_block_count c (default 0 (block_count c) + 1)).
  destruct (6 <=? default 0 (block_count c) + 1); simpl; [done|].
  by destruct (batch_get_notes_comments _ rest).
Qed.

Lemma block_ceiling_exits_at_once_witness :
  batch_get_notes_comments (mkCrawler None None (Some 5))
    [Some (OtherException "HTTP 403"); None; Some ReadTimeout]
  = (mkCrawler None None (Some 6), [Exit 1]).
Proof.
  apply (block_ceiling_exits_at_once (mkCrawler None None (Some 5)) "HTTP 403"
           [None; Some ReadTimeout]).
  reflexivity.
Defined.

(** Six block events in a row from a fresh crawler: five sleeps of a minute,
    then the exit; the two notes that follow are not handled. *)
Example six_blocks_trace :
  batch_get_notes_comments fresh
    (replicate 6 (Some (OtherException "HTTP 403")) ++ [None; Some ReadTimeout])
  = (mkCrawler None None (Some 6),
     [Sleep 60; Sleep 60; Sleep 60; Sleep 60; Sleep 60; Exit 1]).
Proof. reflexivity. Qed.

(** C6 as stated fails: the exit is not preceded by a flush of progress. *)
Lemma exit_without_flush :
  ~ flushed_before_exit
      (batch_get_notes_comments fresh
         (replicate 6 (Some (OtherException "HTTP 403")))).2.
Proof.
  intros H.
  specialize (H [Sleep 60; Sleep 60; Sleep 60; Sleep 60; Sleep 60] 1 [] eq_refl).
  simpl in H. naive_solver.
Qed.

(** *** Network errors *)

(** [n] network errors in a row. *)
Definition consecutive_timeouts (n : nat) : list (option exn) :=
  replicate n (Some ReadTimeout).

(** The counters a crawler can have after some network errors in a row, when
    it started fresh: the 4th error and every later one sets the counter
    back to 0. *)
Definition reset_pattern (c : WeiboCrawler) : Prop :=
  (timeout_count c = None /\ success_after_timeout c = None)
  \/ exists s, success_after_timeout c = Some s /\ 0 <= s
       /\ timeout_count c = Some (if 3 <=? s then 0 else s + 1).

Lemma on_timeout_reset_pattern c :
  reset_pattern c ->
  reset_pattern (on_timeout c).1
  /\ exists seconds, (on_timeout c).2 = [Sleep seconds] /\ seconds <= 40.
Proof.
  unfold on_timeout.
  intros [[-> ->] | (s & -> & Hs & ->)]; simpl.
  - split; [|by eexists]. right. exists 0. done.
  - assert (Hmin : Z.min (10 * ((if 3 <=? s then 0 else s + 1) + 1)) 120 <= 40).
    { destruct (Z.leb_spec 3 s); lia. }
    destruct (Z.leb_spec 3 (s + 1)) as [Hreset|Hkeep]; simpl.
    + split; [|by eexists]. right. exists (s + 1). split_and!; [done | lia |].
      destruct (Z.leb_spec 3 (s + 1)); [done | lia].
    + destruct (Z.leb_spec 3 s) as [|_]; [lia|].
      destruct (Z.leb_spec 15 (s + 1 + 1)); [lia|]. simpl.
      split; [|by eexists].
      right. exists (s + 1). split_and!; [done | lia |].
      destruct (Z.leb_spec 3 (s + 1)); [lia | done].
Qed.

Lemma consecutive_timeouts_reset_pattern n : forall c,
  reset_pattern c ->
  reset_pattern (batch_get_notes_comments c (consecutive_timeouts n)).1
  /\ forall e, In e (batch_get_notes_comments c (consecutive_timeouts n)).2 ->
       exists seconds, e = Sleep seconds /\ seconds <= 40.
Proof.
  induction n as [|n IH]; intros c Hc; simpl.
  - split; [done | intros e []].
  - destruct (on_timeout_reset_pattern c Hc) as (Hc1 & seconds & Heff & Hsec).
    destruct (on_timeout c) as [c1 effects1]. simpl in *. subst effects1. simpl.
    destruct (IH c1 Hc1) as (Hc2 & Heffs).
    fold (consecutive_timeouts n).
    destruct (batch_get_notes_comments c1 (consecutive_timeouts n)) as [c2 effects2].
    simpl in *. split; [done|].
    intros e [<-|He]; [by eexists | by apply Heffs].
Qed.

(** C7.  The handler does add one to [timeout_count] and does contain the
    long pause with the halving at 15, but it also counts its own runs in
    [success_after_timeout] and, from the 4th network error on, sets
    [timeout_count] back to 0 every time.  Starting from a fresh crawler, no
    number of network errors in a row brings the counter to 15: it never
    exceeds 3 after a handler has run, and the long pause ([time.sleep(300)])
    never happens. *)
Theorem consecutive_timeouts_never_reach_threshold n :
  ~ In (Sleep 300) (batch_get_notes_comments fresh (consecutive_timeouts n)).2
  /\ forall t,
       timeout_count (batch_get_notes_comments fresh (consecutive_timeouts n)).1 = Some t ->
       t <= 3.
Proof.
  destruct (consecutive_timeouts_reset_pattern n fresh) as [Hpattern Heffects].
  { left. done. }
  split.
  - intros Hin. apply Heffects in Hin as (seconds & [= <-] & Hle). lia.
  - intros t Ht. destruct Hpattern as [[Hnone _] | (s & _ & Hs & Htc)]; [congruence|].
    rewrite Htc in Ht. injection Ht as <-. destruct (Z.leb_spec 3 s); lia.
Qed.

(** Fifteen network errors in a row on a fresh crawler: the counter is 0
    afterwards and the pauses are 10, 20, 30, 40 and then 10 seconds. *)
Example fifteen_timeouts_trace :
  batch_get_notes_comments fresh (consecutive_timeouts 15)
  = (mkCrawler (Some 0) (Some 14) None,
     [Sleep 10; Sleep 20; Sleep 30; Sleep 40] ++ replicate 11 (Sleep 10)).
Proof. reflexivity. Qed.

(** The branch itself, from a state where the reset does not fire: the 15th
    count gives the usual pause, one long pause, and half the counter. *)
Example long_pause_when_reached :
  on_timeout (mkCrawler (Some 14) None None)
  = (mkCrawler (Some 7) (Some 0) None, [Sleep 120; Sleep 300]).
Proof. reflexivity. Qed.

(** *** Runs with any outcomes *)

(** The outcome is a block event: an exception outside the first two
    [except] clauses whose message holds a block indicator. *)
Definition is_block_event (outcome : option exn) : bool :=
  match outcome with
  | Some (OtherException msg) => is_block msg
  | _ => false
  end.

Definition block_events (outcomes : list (option exn)) : Z :=
  Z.of_nat (length (List.filter is_block_event outcomes)).

Lemma block_events_cons outcome outcomes :
  block_events (outcome :: outcomes)
  = (if is_block_event outcome then 1 else 0) + block_events outcomes.
Proof.
  unfold block_events. simpl. destruct (is_block_event outcome); simpl; lia.
Qed.

Lemma on_timeout_block_count c :
  existsb is_exit (on_timeout c).2 = false
  /\ block_count (on_timeout c).1 = block_count c.
Proof.
  unfold on_timeout.
  destruct (success_after_timeout c) as [s|]; simpl.
  - destruct (3 <=? s + 1); destruct (15 <=? _); done.
  - destruct (15 <=? _); done.
Qed.

Lemma get_note_comments_block_count c outcome :
  if is_block_event outcome then
    get_note_comments c outcome
    = (with_block_count c (default 0 (block_count c) + 1),
       if 6 <=? default 0 (block_count c) + 1 then [Exit 1] else [Sleep 60])
  else
    existsb is_exit (get_note_comments c outcome).2 = false
    /\ block_count (get_note_comments c outcome).1 = block_count c.
Proof.
  destruct outcome as [[msg| | | |msg]|]; simpl;
    try done; try apply on_timeout_block_count.
  unfold on_other. by destruct (is_block msg).
Qed.

(** X16. [block_count] is never set back: neither a success nor any other
    outcome between two block events touches it.  A batch therefore ends in
    [sys.exit(1)] exactly when it holds a block event and the block events
    of the batch bring the count it started with to 6; the exit is then
    the last thing that happens.  In a batch that does not exit, the count
    afterwards is the count before plus the number of block events. *)
Theorem block_events_decide_exit outcomes : forall c,
  let r := batch_get_notes_comments c outcomes in
  let total := default 0 (block_count c) + block_events outcomes in
  (existsb is_exit r.2 = true <-> 0 < block_events outcomes /\ 6 <= total)
  /\ (existsb is_exit r.2 = true -> last r.2 = Some (Exit 1))
  /\ (existsb is_exit r.2 = false ->
      block_count r.1 = if 0 <? block_events outcomes then Some total else block_count c).
Proof.
  induction outcomes as [|outcome outcomes IH]; intros c; cbv zeta.
  - simpl. split_and!; [split; [done | unfold block_events; simpl; lia] | done | done].
  - rewrite block_events_cons. cbn [batch_get_notes_comments].
    pose proof (get_note_comments_block_count c outcome) as Hstep.
    assert (Hev : 0 <= block_events outcomes) by (unfold block_events; lia).
    destruct (is_block_event outcome).
    + rewrite Hstep.
      destruct (Z.leb_spec 6 (default 0 (block_count c) + 1)) as [Hsix|Hless].
      * simpl. split_and!; [split; [lia | done] | done | done].
      * cbn [existsb is_exit orb].
        specialize (IH (with_block_count c (default 0 (block_count c) + 1))).
        cbv zeta in IH. simpl block_count in IH. cbn [default] in IH.
        destruct (batch_get_notes_comments _ outcomes) as [c2 effects2].
        simpl in *. destruct IH as (IH1 & IH2 & IH3). split_and!.
        -- rewrite IH1. lia.
        -- intros H. specialize (IH2 H). by destruct effects2.
        -- intros H. rewrite (IH3 H).
           destruct (Z.ltb_spec 0 (block_events outcomes));
             destruct (Z.ltb_spec 0 (1 + block_events outcomes)); try lia;
             f_equal; lia.
    + destruct (get_note_comments c outcome) as [c1 effects1].
      simpl in Hstep. destruct Hstep as [Hnoexit Hcount]. rewrite Hnoexit.
      specialize (IH c1). cbv zeta in IH. rewrite Hcount in IH.
      destruct (batch_get_notes_comments c1 outcomes) as [c2 effects2].
      simpl in *. destruct IH as (IH1 & IH2 & IH3).
      rewrite existsb_app, Hnoexit. simpl. split_and!.
      * rewrite IH1. lia.
      * intros H. specialize (IH2 H). rewrite last_app, IH2. done.
      * intros H. rewrite (IH3 H). done.
Qed.

Lemma get_note_comments_reset_pattern c outcome :
  reset_pattern c ->
  reset_pattern (get_note_comments c outcome).1
  /\ forall e, In e (get_note_comments c outcome).2 ->
       e = Exit 1 \/ exists seconds, e = Sleep seconds /\ seconds <= 60.
Proof.
  intros Hc. destruct outcome as [[msg| | | |msg]|]; simpl.
  - split; [done|]. intros e [<-|[]]. right. eexists. split; [done | lia].
  - destruct (on_timeout_reset_pattern c Hc) as (Hc1 & seconds & -> & Hsec).
    split; [done|]. intros e [<-|[]]. right. eexists. split; [done | lia].
  - destruct (on_timeout_reset_pattern c Hc) as (Hc1 & seconds & -> & Hsec).
    split; [done|]. intros e [<-|[]]. right. eexists. split; [done | lia].
  - destruct (on_timeout_reset_pattern c Hc) as (Hc1 & seconds & -> & Hsec).
    split; [done|]. intros e [<-|[]]. right. eexists. split; [done | lia].
  - unfold on_other. destruct (is_block msg); simpl.
    + split; [done|]. destruct (6 <=? _); intros e [<-|[]]; [by left|].
      right. eexists. split; [done | lia].
    + split; [done|]. intros e [<-|[]]. right. eexists. split; [done | lia].
  - split; [done | intros e []].
Qed.

(** X17. Whatever the outcomes of a batch on a fresh crawler, successes and
    other errors between the network errors included, the handlers never
    pause for more than 60 seconds: the pause of 300 seconds is never
    taken, and [timeout_count] never exceeds 3 after a note. *)
Theorem long_pause_unreachable outcomes :
  let r := batch_get_notes_comments fresh outcomes in
  ~ In (Sleep 300) r.2
  /\ (forall e, In e r.2 -> e = Exit 1 \/ exists seconds, e = Sleep seconds /\ seconds <= 60)
  /\ forall t, timeout_count r.1 = Some t -> 0 <= t <= 3.
Proof.
  cbv zeta.
  assert (Hgen : forall c, reset_pattern c ->
    reset_pattern (batch_get_notes_comments c outcomes).1
    /\ forall e, In e (batch_get_notes_comments c outcomes).2 ->
         e = Exit 1 \/ exists seconds, e = Sleep seconds /\ seconds <= 60).
  { induction outcomes as [|outcome outcomes IH]; intros c Hc; simpl.
    - split; [done | intros e []].
    - destruct (get_note_comments_reset_pattern c outcome Hc) as [Hc1 Heff1].
      destruct (get_note_comments c outcome) as [c1 effects1]. simpl in *.
      destruct (existsb is_exit effects1); [done|].
      destruct (IH c1 Hc1) as [Hc2 Heff2].
      destruct (batch_get_notes_comments c1 outcomes) as [c2 effects2]. simpl in *.
      split; [done|]. intros e He. apply in_app_or in He as [He|He]; auto. }
  destruct (Hgen fresh) as [Hpattern Heffects]; [by left|].
  split_and!.
  - intros Hin. apply Heffects in Hin as [Hin|(seconds & [= <-] & Hle)]; [done | lia].
  - done.
  - intros t Ht. destruct Hpattern as [[Hnone _] | (s & _ & Hs & Htc)]; [congruence|].
    rewrite Htc in Ht. injection Ht as <-. destruct (Z.leb_spec 3 s); lia.
Qed.


End Crawler.

(* ===================================================================== *)
(** ** sdk/proxy_manager.py : the proxy pool *)
(* ===================================================================== *)

Module Proxy.

(** [IpInfoModel] (the fields read by this file). *)
Record IpInfoModel := mkIp {
  ip : string;
  port : Z;
  user : string;
  password : string;
  expired_time_ts : Z;
  protocol : string
}.

(** [ProxyInfo] (lines 51-99); [assigned_to] is never written. *)
Record ProxyInfo := mkProxy {
  ip_info : IpInfoModel;
  last_used : Z;
  is_valid : bool;
  task_count : Z
}.

(** [ProxyInfo(ip_info)] *)
Definition new_proxy (i : IpInfoModel) : ProxyInfo :=
  {| ip_info := i; last_used := 0; is_valid := true; task_count := 0 |}.

Definition mark_used (now : Z) (p : ProxyInfo) : ProxyInfo :=
  {| ip_info := ip_info p;
     last_used := now;
     is_valid := is_valid p;
     task_count := task_count p + 1 |}.

(** [current_time >= self.ip_info.expired_time_ts] *)
Definition is_expired (now : Z) (p : ProxyInfo) : bool :=
  expired_time_ts (ip_info p) <=? now.

(** [max(0, self.ip_info.expired_time_ts - current_time)] *)
Definition time_until_expiry (now : Z) (p : ProxyInfo) : Z :=
  Z.max 0 (expired_time_ts (ip_info p) - now).

Definition min_pool_size : Z := 10.
Definition proxy_replacement_threshold : Z := 60.

(** [ProxyManager]: [enable_proxy], [self.proxies], and the numbers of
    proxies asked of the provider so far, oldest first. *)
Record ProxyManager := mkManager {
  enable_proxy : bool;
  proxies : list ProxyInfo;
  requests : list Z
}.

(** Sort key [(x.last_used, x.task_count)]. *)
Definition key_leb (a b : ProxyInfo) : bool :=
  (last_used a <? last_used b)
  || ((last_used a =? last_used b) && (task_count a <=? task_count b)).

(** [p.time_until_expiry() > self.proxy_replacement_threshold] *)
Definition clears_margin (now : Z) (p : ProxyInfo) : bool :=
  proxy_replacement_threshold <? time_until_expiry now p.

Section Provider.
(** [self.kuaidaili_client.get_proxies(num)], the provider outside this
    file: what the request number [k] (counted from 0) for [num] proxies
    returns, [None] when it raises.  All the clock readings of one call of
    [get_proxy] are the same instant [now]. *)
Variable get_proxies : nat -> Z -> option (list IpInfoModel).

(** [_remove_expired_proxies] (lines 235-241) *)
Definition remove_expired_proxies (now : Z) (pm : ProxyManager) : ProxyManager :=
  {| enable_proxy := enable_proxy pm;
     proxies := List.filter (fun p => negb (is_expired now p)) (proxies pm);
     requests := requests pm |}.

(** [_replenish_pool_if_needed] (lines 243-258) *)
Definition replenish_pool_if_needed (needed : option Z) (force : bool)
    (pm : ProxyManager) : ProxyManager :=
  if force || (Z.of_nat (length (proxies pm)) <? min_pool_size) then
    let count_to_fetch :=
      match needed with
      | Some n => n
      | None => Z.max (min_pool_size - Z.of_nat (length (proxies pm))) 5
      end in
    match get_proxies (length (requests pm)) count_to_fetch with
    | Some new_proxies =>
        {| enable_proxy := enable_proxy pm;
           proxies := proxies pm ++ List.map new_proxy new_proxies;
           requests := requests pm ++ [count_to_fetch] |}
    | None =>
        {| enable_proxy := enable_proxy pm;
           proxies := proxies pm;
           requests := requests pm ++ [count_to_fetch] |}
    end
  else pm.

(** Sorting a filtered copy, taking its first element and marking it used:
    the pool keeps its order, the object is updated where it stands. *)
Definition select_from (now : Z) (pm : ProxyManager)
    (valid_proxies : list (nat * ProxyInfo)) : option ProxyInfo * ProxyManager :=
  match stable_sort (fun a b => key_leb a.2 b.2) valid_proxies with
  | (index, proxy) :: _ =>
      (Some (mark_used now proxy),
       {| enable_proxy := enable_proxy pm;
          proxies := <[index := mark_used now proxy]> (proxies pm);
          requests := requests pm |})
  | [] => (None, pm)      (* not reached: the list is not empty *)
  end.

(** [valid_proxies = self.proxies]: the pool itself is sorted in place. *)
Definition select_any (now : Z) (pm : ProxyManager) : option ProxyInfo * ProxyManager :=
  match stable_sort key_leb (proxies pm) with
  | proxy :: rest =>
      (Some (mark_used now proxy),
       {| enable_proxy := enable_proxy pm;
          proxies := mark_used now proxy :: rest;
          requests := requests pm |})
  | [] => (None, pm)      (* not reached: the pool is not empty *)
  end.

Definition valid_proxies (now : Z) (pm : ProxyManager) : list (nat * ProxyInfo) :=
  List.filter (fun e => clears_margin now e.2) (indexed (proxies pm)).

(** [get_proxy] (lines 143-181) *)
Definition get_proxy (now : Z) (pm : ProxyManager) : option ProxyInfo * ProxyManager :=
  if negb (enable_proxy pm) then (None, pm)
  else
    let pm := replenish_pool_if_needed None false (remove_expired_proxies now pm) in
    match proxies pm with
    | [] => (None, pm)
    | _ =>
        match valid_proxies now pm with
        | _ :: _ => select_from now pm (valid_proxies now pm)
        | [] =>
            let pm := replenish_pool_if_needed None true pm in
            match valid_proxies now pm with
            | _ :: _ => select_from now pm (valid_proxies now pm)
            | [] => select_any now pm
            end
        end
    end.

End Provider.

(** The stand-in provider of this file (lines 30-49): [num] proxies, each
    expiring 300 seconds after the request. *)
Definition mock_get_proxies (now : Z) (k : nat) (num : Z) : option (list IpInfoModel) :=
  Some (List.map
          (fun i => mkIp ("192.168.0." +:+ pretty i) (8080 + Z.of_nat i)
                      "mockuser" "mockpass" (now + 300) "http")
          (seq 0 (Z.to_nat num))).

(** *** No expired proxy is handed out *)

Section ProviderFacts.
Variable get_proxies : nat -> Z -> option (list IpInfoModel).








(** *** Replenishing an empty pool *)

Lemma select_from_Some now pm valid :
  valid <> [] ->
  exists p pool,
    select_from now pm valid = (Some p, mkManager (enable_proxy pm) pool (requests pm)).
Proof.
  intros Hvalid. unfold select_from.
  destruct (stable_sort _ valid) as [|[index proxy] rest] eqn:Hsort.
  - by apply stable_sort_nil in Hsort.
  - by eexists _, _.
Qed.

Lemma select_any_Some now pm :
  proxies pm <> [] ->
  exists p pool,
    select_any now pm = (Some p, mkManager (enable_proxy pm) pool (requests pm)).
Proof.
  intros Hpool. unfold select_any.
  destruct (stable_sort key_leb (proxies pm)) as [|proxy rest] eqn:Hsort.
  - by apply stable_sort_nil in Hsort.
  - by eexists _, _.
Qed.

Lemma first_replenish now reqs :
  replenish_pool_if_needed get_proxies None false
    (remove_expired_proxies now (mkManager true [] reqs))
  = match get_proxies (length reqs) 10 with
    | Some new_proxies => mkManager true (List.map new_proxy new_proxies) (reqs ++ [10])
    | None => mkManager true [] (reqs ++ [10])
    end.
Proof. reflexivity. Qed.

(** C9, as the code has it.  With proxies enabled and an empty pool,
    [get_proxy] asks the provider once for [max(min_pool_size - 0, 5) = 10]
    proxies before it returns.  When that request fails or yields nothing,
    [None] is returned after this one request.  When it yields a proxy with
    more than 60 seconds left, a proxy is returned after this one request.
    When it yields proxies none of which has more than 60 seconds left, a
    second, forced request for [max(10 - len, 5)] proxies is made before a
    proxy is returned. *)
Theorem get_proxy_empty_pool_requests now pm :
  enable_proxy pm = true -> proxies pm = [] ->
  match get_proxies (length (requests pm)) 10 with
  | None | Some [] =>
      get_proxy get_proxies now pm = (None, mkManager true [] (requests pm ++ [10]))
  | Some leases =>
      is_Some (get_proxy get_proxies now pm).1
      /\ requests (get_proxy get_proxies now pm).2
         = if existsb (clears_margin now) (List.map new_proxy leases)
           then requests pm ++ [10]
           else requests pm ++ [10; Z.max (10 - Z.of_nat (length leases)) 5]
  end.
Proof.
  destruct pm as [enabled pool reqs]. simpl. intros -> ->.
  unfold get_proxy. cbn [enable_proxy negb].
  rewrite first_replenish.
  destruct (get_proxies (length reqs) 10) as [[|lease leases]|] eqn:Hfirst; [done| |done].
  set (pool1 := List.map new_proxy (lease :: leases)).
  set (pm1 := {| enable_proxy := true; proxies := pool1; requests := reqs ++ [10] |}).
  change (proxies pm1) with (new_proxy lease :: List.map new_proxy leases). cbv iota.
  destruct (existsb (clears_margin now) pool1) eqn:Hmargin.
  - destruct (valid_proxies now pm1) as [|e valid] eqn:Hvalid.
    { apply (filter_indexed_nil (clears_margin now)) in Hvalid.
      change (proxies pm1) with pool1 in Hvalid. congruence. }
    rewrite <- Hvalid.
    destruct (select_from_Some now pm1 (valid_proxies now pm1)) as (p & pool' & ->).
    { by rewrite Hvalid. }
    split; [by eexists | done].
  - assert (Hvalid : valid_proxies now pm1 = [])
      by (by apply (filter_indexed_nil (clears_margin now))).
    rewrite Hvalid.
    set (pm2 := replenish_pool_if_needed get_proxies None true pm1).
    set (count := Z.max (10 - Z.of_nat (length (lease :: leases))) 5).
    assert (Hpm2 : requests pm2 = reqs ++ [10; count] /\ proxies pm2 <> []
                   /\ enable_proxy pm2 = true).
    { unfold pm2, replenish_pool_if_needed. cbn [orb].
      change (proxies pm1) with pool1. change (requests pm1) with (reqs ++ [10]).
      replace (Z.max (min_pool_size - Z.of_nat (length pool1)) 5) with count
        by (unfold pool1, count; by rewrite length_map).
      destruct (get_proxies _ count); simpl; rewrite <- app_assoc; done. }
    destruct Hpm2 as (Hreq & Hpool & Hen).
    destruct (valid_proxies now pm2) as [|e valid] eqn:Hvalid2.
    + destruct (select_any_Some now pm2 Hpool) as (p & pool' & ->).
      split; [by eexists | done].
    + rewrite <- Hvalid2.
      destruct (select_from_Some now pm2 (valid_proxies now pm2)) as (p & pool' & ->).
      { by rewrite Hvalid2. }
      split; [by eexists | done].
Qed.

End ProviderFacts.


(** A pool at time 1000: one proxy expired at 900, one good until 1500. *)
Definition sample_manager : ProxyManager :=
  mkManager true
    [ mkProxy (mkIp "10.0.0.1" 8080 "u" "p" 900 "http") 0 true 0;
      mkProxy (mkIp "10.0.0.2" 8080 "u" "p" 1500 "http") 5 true 1 ]
    [].




Lemma get_proxy_empty_pool_requests_witness :
  is_Some (get_proxy (mock_get_proxies 1000) 1000 (mkManager true [] [])).1
  /\ requests (get_proxy (mock_get_proxies 1000) 1000 (mkManager true [] [])).2 = [10].
Proof.
  exact (get_proxy_empty_pool_requests (mock_get_proxies 1000) 1000
           (mkManager true [] []) eq_refl eq_refl).
Defined.

(** A provider whose proxies live 30 seconds: it hands out as many proxies
    as asked, each expiring at 1030. *)
Definition short_lived_get_proxies (k : nat) (num : Z) : option (list IpInfoModel) :=
  Some (replicate (Z.to_nat num) (mkIp "10.0.0.7" 8080 "u" "p" 1030 "http")).

(** C9 as stated fails: with an empty pool at time 1000 and a provider whose
    proxies have 30 seconds left, one call of [get_proxy] makes two requests,
    for 10 and then for 5 proxies. *)
Lemma get_proxy_two_requests :
  requests (get_proxy short_lived_get_proxies 1000 (mkManager true [] [])).2 = [10; 5]
  /\ length (requests (get_proxy short_lived_get_proxies 1000 (mkManager true [] [])).2)
     <> 1%nat.
Proof. split; [reflexivity | by vm_compute]. Qed.

(** *** The pool for concurrent tasks *)

Section Concurrent.
Variable get_proxies : nat -> Z -> option (list IpInfoModel).

(** [initialize_pool] (lines 125-141) *)
Definition initialize_pool (initial_size : Z) (pm : ProxyManager) : ProxyManager :=
  if negb (enable_proxy pm) then pm
  else
    match get_proxies (length (requests pm)) initial_size with
    | Some ip_info_list =>
        {| enable_proxy := enable_proxy pm;
           proxies := List.map new_proxy ip_info_list;
           requests := requests pm ++ [initial_size] |}
    | None =>
        {| enable_proxy := enable_proxy pm;
           proxies := proxies pm;
           requests := requests pm ++ [initial_size] |}
    end.

(** [proxy.mark_used()] on each object of [chosen], where it stands in the
    pool.  As for [get_proxy], all the clock readings of one call are the
    same instant [now]. *)
Definition mark_each (now : Z) (chosen : list (nat * ProxyInfo)) (pool : list ProxyInfo)
  : list ProxyInfo :=
  foldl (fun pool e => <[e.1 := mark_used now e.2]> pool) pool chosen.

(** [while len(selected_proxies) < count: selected_proxies.append(None)] *)
Definition padded (count : Z) (selected : list ProxyInfo) : list (option ProxyInfo) :=
  List.map Some selected
  ++ replicate (Z.to_nat (count - Z.of_nat (length selected))) None.

(** The selection from a filtered copy of the pool: the copy is sorted, its
    first [min(count, len)] objects are marked used and returned. *)
Definition select_many_from (now count : Z) (pm : ProxyManager)
    (valid_proxies : list (nat * ProxyInfo)) : list (option ProxyInfo) * ProxyManager :=
  let sorted := stable_sort (fun a b => key_leb a.2 b.2) valid_proxies in
  let chosen := take (Z.to_nat (Z.min count (Z.of_nat (length sorted)))) sorted in
  (padded count (List.map (fun e => mark_used now e.2) chosen),
   {| enable_proxy := enable_proxy pm;
      proxies := mark_each now chosen (proxies pm);
      requests := requests pm |}).

(** [valid_proxies = self.proxies]: the pool itself is sorted in place. *)
Definition select_many_any (now count : Z) (pm : ProxyManager)
  : list (option ProxyInfo) * ProxyManager :=
  let sorted := stable_sort key_leb (proxies pm) in
  let n := Z.to_nat (Z.min count (Z.of_nat (length sorted))) in
  let selected := List.map (mark_used now) (take n sorted) in
  (padded count selected,
   {| enable_proxy := enable_proxy pm;
      proxies := selected ++ drop n sorted;
      requests := requests pm |}).

(** [get_proxies_for_concurrent_tasks] (lines 183-233) *)
Definition get_proxies_for_concurrent_tasks (now count : Z) (pm : ProxyManager)
  : list (option ProxyInfo) * ProxyManager :=
  if negb (enable_proxy pm) then (replicate (Z.to_nat count) None, pm)
  else
    let pm := remove_expired_proxies now pm in
    let needed := Z.max 0 (count - Z.of_nat (length (proxies pm))) in
    let pm :=
      if 0 <? needed then replenish_pool_if_needed get_proxies (Some needed) false pm
      else pm in
    let pm :=
      if Z.of_nat (length (valid_proxies now pm)) <? count then
        replenish_pool_if_needed get_proxies
          (Some (count - Z.of_nat (length (valid_proxies now pm)))) true pm
      else pm in
    if Z.of_nat (length (valid_proxies now pm)) <? count
    then select_many_any now count pm
    else select_many_from now count pm (valid_proxies now pm).

(** The pool as the call leaves it before it selects. *)
Definition replenished (now count : Z) (pm : ProxyManager) : ProxyManager :=
  let pm := remove_expired_proxies now pm in
  let needed := Z.max 0 (count - Z.of_nat (length (proxies pm))) in
  let pm :=
    if 0 <? needed then replenish_pool_if_needed get_proxies (Some needed) false pm
    else pm in
  if Z.of_nat (length (valid_proxies now pm)) <? count then
    replenish_pool_if_needed get_proxies
      (Some (count - Z.of_nat (length (valid_proxies now pm)))) true pm
  else pm.

Lemma get_proxies_for_concurrent_tasks_eq now count pm :
  get_proxies_for_concurrent_tasks now count pm
  = if negb (enable_proxy pm) then (replicate (Z.to_nat count) None, pm)
    else if Z.of_nat (length (valid_proxies now (replenished now count pm))) <? count
         then select_many_any now count (replenished now count pm)
         else select_many_from now count (replenished now count pm)
                (valid_proxies now (replenished now count pm)).
Proof. reflexivity. Qed.

(** What a selection hands out of the pool [pm]. *)
Definition hands_out (now count : Z) (pm : ProxyManager)
    (sel : list (option ProxyInfo) * ProxyManager) : Prop :=
  exists selected,
    sel.1 = padded count selected
    /\ length selected = Nat.min (Z.to_nat count) (length (proxies pm))
    /\ length (proxies sel.2) = length (proxies pm)
    /\ requests sel.2 = requests pm
    /\ enable_proxy sel.2 = enable_proxy pm
    /\ (forall p, In p selected ->
          In p (proxies sel.2) /\ exists q, In q (proxies pm) /\ p = mark_used now q)
    /\ (forall r, In r (proxies sel.2) ->
          exists q, In q (proxies pm) /\ (r = q \/ r = mark_used now q)).

Lemma mark_each_length now chosen : forall pool,
  length (mark_each now chosen pool) = length pool.
Proof.
  unfold mark_each.
  induction chosen as [|e chosen IH]; intros pool; simpl; [done|].
  by rewrite IH, length_insert.
Qed.

Lemma mark_each_lookup_ne now chosen i : forall pool,
  ~ In i (List.map fst chosen) ->
  mark_each now chosen pool !! i = pool !! i.
Proof.
  unfold mark_each.
  induction chosen as [|e chosen IH]; intros pool Hi; simpl; [done|].
  rewrite IH by (intros H; apply Hi; by right).
  apply list_lookup_insert_ne. intros Heq. apply Hi. by left.
Qed.

Lemma mark_each_lookup now chosen : forall pool e,
  List.NoDup (List.map fst chosen) ->
  (forall e', In e' chosen -> (e'.1 < length pool)%nat) ->
  In e chosen ->
  mark_each now chosen pool !! e.1 = Some (mark_used now e.2).
Proof.
  induction chosen as [|e0 chosen IH]; intros pool e Hnd Hlt He; [done|].
  simpl in Hnd. apply List.NoDup_cons_iff in Hnd as [Hfresh Hnd]. simpl.
  destruct He as [->|He].
  - change (mark_each now chosen (<[e.1 := mark_used now e.2]> pool) !! e.1
            = Some (mark_used now e.2)).
    rewrite mark_each_lookup_ne by done.
    apply list_lookup_insert_eq. apply Hlt. by left.
  - apply (IH (<[e0.1 := mark_used now e0.2]> pool) e); [done | | done].
    intros e' He'. rewrite length_insert. apply Hlt. by right.
Qed.

Lemma mark_each_In now chosen : forall pool r,
  In r (mark_each now chosen pool) ->
  In r pool \/ exists e, In e chosen /\ r = mark_used now e.2.
Proof.
  induction chosen as [|e0 chosen IH]; intros pool r Hr; simpl in Hr; [by left|].
  apply IH in Hr as [Hr|(e & He & ->)].
  - apply In_list_insert in Hr as [->|Hr]; [|by left].
    right. exists e0. split; [by left | done].
  - right. exists e. split; [by right | done].
Qed.

Lemma indexed_NoDup {A : Type} (pool : list A) (l : list (nat * A)) :
  (forall e, In e l -> In e (indexed pool)) -> List.NoDup l ->
  List.NoDup (List.map fst l).
Proof.
  intros Hsub. induction 1 as [|e l Hnotin Hnd IH]; simpl; [constructor|].
  constructor.
  - intros Hin. apply in_map_iff in Hin as (e' & Hfst & He').
    assert (e' = e); [|by subst].
    destruct e as [i x], e' as [j y]. simpl in Hfst. subst j.
    assert (Hx : pool !! i = Some x) by (apply indexed_In, Hsub; by left).
    assert (Hy : pool !! i = Some y) by (apply indexed_In, Hsub; by right).
    congruence.
  - apply IH. intros e' He'. apply Hsub. by right.
Qed.

Lemma indexed_NoDup_all {A : Type} (pool : list A) : List.NoDup (indexed pool).
Proof.
  apply NoDup_ListNoDup, NoDup_alt. intros i j [k x] Hi Hj.
  unfold indexed in Hi, Hj. rewrite list_lookup_imap in Hi, Hj.
  destruct (pool !! i) eqn:Hpi; [|done]. destruct (pool !! j) eqn:Hpj; [|done].
  simpl in Hi, Hj. congruence.
Qed.

Lemma valid_proxies_length now pm :
  (length (valid_proxies now pm) <= length (proxies pm))%nat.
Proof.
  unfold valid_proxies.
  etransitivity; [apply List.filter_length_le|].
  unfold indexed. by rewrite length_imap.
Qed.

Lemma select_many_from_hands_out now count pm :
  count <= Z.of_nat (length (valid_proxies now pm)) ->
  hands_out now count pm (select_many_from now count pm (valid_proxies now pm)).
Proof.
  intros Hcount. unfold select_many_from.
  set (sorted := stable_sort (fun a b => key_leb a.2 b.2) (valid_proxies now pm)).
  assert (Hlen : length sorted = length (valid_proxies now pm))
    by apply stable_sort_length.
  set (chosen := take (Z.to_nat (Z.min count (Z.of_nat (length sorted)))) sorted).
  assert (Hchosen : forall e, In e chosen -> proxies pm !! e.1 = Some e.2).
  { intros [i x] He. apply indexed_In.
    assert (Hs : In (i, x) sorted).
    { by eapply In_take. }
    apply stable_sort_In in Hs. apply filter_In in Hs as [Hs _]. done. }
  assert (Hnd : List.NoDup (List.map fst chosen)).
  { apply (indexed_NoDup (proxies pm)).
    - intros [i x] He. apply indexed_In. by apply (Hchosen (i, x)).
    - apply NoDup_ListNoDup. apply (sublist_NoDup chosen sorted); [|apply sublist_take].
      apply NoDup_ListNoDup. apply (Permutation_NoDup (l := valid_proxies now pm)).
      + symmetry. apply stable_sort_Permutation.
      + apply List.NoDup_filter. apply indexed_NoDup_all. }
  pose proof (valid_proxies_length now pm) as Hvalid.
  exists (List.map (fun e => mark_used now e.2) chosen). simpl. split_and!.
  - done.
  - rewrite length_map. unfold chosen. rewrite length_take. lia.
  - apply mark_each_length.
  - done.
  - done.
  - intros p Hp. apply in_map_iff in Hp as (e & <- & He). split.
    + apply list_elem_of_In, list_elem_of_lookup. exists e.1.
      apply mark_each_lookup; [done | | done].
      intros e' He'. eapply lookup_lt_Some. by apply Hchosen.
    + exists e.2. split; [|done].
      apply list_elem_of_In, list_elem_of_lookup. exists e.1. by apply Hchosen.
  - intros r Hr. apply mark_each_In in Hr as [Hr|(e & He & ->)].
    + exists r. split; [done | by left].
    + exists e.2. split; [|by right].
      apply list_elem_of_In, list_elem_of_lookup. exists e.1. by apply Hchosen.
Qed.

Lemma select_many_any_hands_out now count pm :
  hands_out now count pm (select_many_any now count pm).
Proof.
  unfold select_many_any.
  set (sorted := stable_sort key_leb (proxies pm)).
  assert (Hlen : length sorted = length (proxies pm)) by apply stable_sort_length.
  set (n := Z.to_nat (Z.min count (Z.of_nat (length sorted)))).
  assert (Hsorted : forall q, In q sorted -> In q (proxies pm)).
  { intros q Hq. by apply stable_sort_In in Hq. }
  exists (List.map (mark_used now) (take n sorted)). simpl. split_and!.
  - done.
  - rewrite length_map, length_take. lia.
  - rewrite length_app, length_map, length_take, length_drop. lia.
  - done.
  - done.
  - intros p Hp. split; [apply in_or_app; by left|].
    apply in_map_iff in Hp as (q & <- & Hq). exists q. split; [|done].
    apply Hsorted. by eapply In_take.
  - intros r Hr. apply in_app_or in Hr as [Hr|Hr].
    + apply in_map_iff in Hr as (q & <- & Hq). exists q. split; [|by right].
      apply Hsorted. by eapply In_take.
    + exists r. split; [|by left].
      apply Hsorted. by eapply In_drop.
Qed.

(** With proxies enabled, the call hands out of the replenished pool. *)
Lemma get_proxies_for_concurrent_tasks_hands_out now count pm :
  enable_proxy pm = true ->
  hands_out now count (replenished now count pm)
    (get_proxies_for_concurrent_tasks now count pm).
Proof.
  intros Hen. rewrite get_proxies_for_concurrent_tasks_eq, Hen. simpl.
  destruct (Z.ltb_spec (Z.of_nat (length (valid_proxies now (replenished now count pm)))) count).
  - apply select_many_any_hands_out.
  - by apply select_many_from_hands_out.
Qed.

End Concurrent.


(** *** What is handed out *)

Lemma proxy_key_leb_total a b : key_leb a b = true \/ key_leb b a = true.
Proof.
  unfold key_leb.
  destruct (Z.ltb_spec (last_used a) (last_used b)),
           (Z.ltb_spec (last_used b) (last_used a)),
           (Z.eqb_spec (last_used a) (last_used b)),
           (Z.eqb_spec (last_used b) (last_used a)),
           (Z.leb_spec (task_count a) (task_count b)),
           (Z.leb_spec (task_count b) (task_count a));
    simpl; auto; lia.
Qed.

Lemma proxy_key_leb_trans a b c :
  key_leb a b = true -> key_leb b c = true -> key_leb a c = true.
Proof.
  unfold key_leb.
  destruct (Z.ltb_spec (last_used a) (last_used b)),
           (Z.ltb_spec (last_used b) (last_used c)),
           (Z.ltb_spec (last_used a) (last_used c)),
           (Z.eqb_spec (last_used a) (last_used b)),
           (Z.eqb_spec (last_used b) (last_used c)),
           (Z.eqb_spec (last_used a) (last_used c)),
           (Z.leb_spec (task_count a) (task_count b)),
           (Z.leb_spec (task_count b) (task_count c)),
           (Z.leb_spec (task_count a) (task_count c));
    simpl; try done; lia.
Qed.

Section Selection.
Variable get_proxies : nat -> Z -> option (list IpInfoModel).

(** The proxy [p] handed out of the pool [pool'] is [q] marked used, and
    [q] was the least recently used among the proxies of the pool that
    clear the margin. *)
Definition least_recently_used (now : Z) (q p : ProxyInfo) (pool' : list ProxyInfo) : Prop :=
  p = mark_used now q
  /\ In p pool'
  /\ forall r, In r pool' -> clears_margin now r = true -> r = p \/ key_leb q r = true.

Lemma select_from_least now pm p pm' :
  select_from now pm (valid_proxies now pm) = (Some p, pm') ->
  exists q, least_recently_used now q p (proxies pm').
Proof.
  unfold select_from.
  destruct (stable_sort _ _) as [|[index proxy] rest] eqn:Hsort; [done|].
  intros [= <- <-].
  apply stable_sort_head_min in Hsort as [Hhead Hmin].
  - apply filter_In in Hhead as [Hhead _]. apply indexed_In in Hhead.
    exists proxy. split_and!; [done | |]; simpl.
    + apply list_elem_of_In, list_elem_of_lookup. exists index.
      apply list_lookup_insert_eq. by eapply lookup_lt_Some.
    + intros r Hr Hmargin. apply In_list_insert in Hr as [->|Hr]; [by left|].
      right. apply list_elem_of_In, list_elem_of_lookup in Hr as [j Hj].
      apply (Hmin (j, r)). apply filter_In. split; [by apply indexed_In | done].
  - intros a b. apply proxy_key_leb_total.
  - intros a b c. apply proxy_key_leb_trans.
Qed.

Lemma select_any_least now pm p pm' :
  select_any now pm = (Some p, pm') ->
  exists q, least_recently_used now q p (proxies pm').
Proof.
  unfold select_any.
  destruct (stable_sort key_leb (proxies pm)) as [|proxy rest] eqn:Hsort; [done|].
  intros [= <- <-].
  pose proof (stable_sort_In key_leb) as Hperm.
  apply stable_sort_head_min in Hsort as Hhead;
    [|apply proxy_key_leb_total|apply proxy_key_leb_trans].
  destruct Hhead as [_ Hmin].
  exists proxy. split_and!; [done | by left |]; simpl.
  intros r [<-|Hr] _; [by left|]. right. apply Hmin.
  apply Hperm. rewrite Hsort. by right.
Qed.

(** X18. Round-robin: the proxy that [get_proxy] returns is an object of
    the pool, marked used at the time of the call; before the mark its key
    [(last_used, task_count)] was the least among the proxies of the pool
    with more than 60 seconds left. *)
Theorem get_proxy_least_recently_used now pm p pm' :
  get_proxy get_proxies now pm = (Some p, pm') ->
  exists q,
    p = mark_used now q
    /\ In p (proxies pm')
    /\ forall r, In r (proxies pm') -> clears_margin now r = true ->
         r = p \/ key_leb q r = true.
Proof.
  unfold get_proxy.
  destruct (enable_proxy pm); simpl; [|done].
  set (pm1 := replenish_pool_if_needed get_proxies None false (remove_expired_proxies now pm)).
  destruct (proxies pm1) as [|q0 pool1] eqn:Hpool1; [done|].
  destruct (valid_proxies now pm1) as [|e1 valid1] eqn:Hvalid1.
  - set (pm2 := replenish_pool_if_needed get_proxies None true pm1).
    destruct (valid_proxies now pm2) as [|e2 valid2] eqn:Hvalid2.
    + apply select_any_least.
    + rewrite <- Hvalid2. apply select_from_least.
  - rewrite <- Hvalid1. apply select_from_least.
Qed.


(** X19. [get_proxies_for_concurrent_tasks] always returns [count]
    entries (none for a negative [count]): proxies first, then [None]s.
    The proxies are objects of the pool, marked used at the time of the
    call.  With proxies enabled a [None] appears only when the pool, after
    the expired proxies are dropped and the provider was asked, holds
    fewer than [count] proxies, and then the whole pool is handed out;
    with proxies disabled every entry is [None] and nothing changes. *)
Theorem get_proxies_for_concurrent_tasks_shape now count pm :
  let r := get_proxies_for_concurrent_tasks get_proxies now count pm in
  length r.1 = Z.to_nat count
  /\ exists selected,
       r.1 = List.map Some selected
             ++ replicate (Z.to_nat count - length selected) None
       /\ (forall p, In p selected -> last_used p = now /\ In p (proxies r.2))
       /\ if enable_proxy pm
          then length selected = Nat.min (Z.to_nat count) (length (proxies r.2))
          else selected = [] /\ r.2 = pm.
Proof.
  cbv zeta. destruct (enable_proxy pm) eqn:Hen.
  - destruct (get_proxies_for_concurrent_tasks_hands_out get_proxies now count pm Hen)
      as (selected & Hres & Hlen & Hpool & _ & _ & Hsel & _).
    assert (Hpad : padded count selected
                   = List.map Some selected
                     ++ replicate (Z.to_nat count - length selected) None).
    { unfold padded. do 2 f_equal. lia. }
    split.
    + rewrite Hres, Hpad, length_app, length_map, length_replicate. lia.
    + exists selected. split_and!.
      * by rewrite Hres.
      * intros p Hp. destruct (Hsel p Hp) as (Hin & q & _ & ->). done.
      * by rewrite Hpool.
  - rewrite get_proxies_for_concurrent_tasks_eq, Hen. simpl.
    split; [by rewrite length_replicate|].
    exists []. simpl. split_and!; [by rewrite Nat.sub_0_r | done | done | done].
Qed.



Lemma replenish_pool_if_needed_requests n force pm :
  exists extra,
    requests (replenish_pool_if_needed get_proxies (Some n) force pm) = requests pm ++ extra
    /\ (extra = [] \/ extra = [n])
    /\ enable_proxy (replenish_pool_if_needed get_proxies (Some n) force pm) = enable_proxy pm.
Proof.
  unfold replenish_pool_if_needed. destruct (force || _).
  - exists [n]. destruct (get_proxies _ n); simpl; auto.
  - exists []. rewrite app_nil_r. auto.
Qed.

(** X21. One call of [get_proxies_for_concurrent_tasks] asks the provider
    at most twice, each time for a positive number of proxies that is at
    most [count].  It asks for nothing when proxies are disabled, and for
    nothing when at least [count] proxies of the pool have more than 60
    seconds left, even if the pool is below its minimum size. *)
Theorem get_proxies_for_concurrent_tasks_requests now count pm :
  let r := get_proxies_for_concurrent_tasks get_proxies now count pm in
  exists extra,
    requests r.2 = requests pm ++ extra
    /\ (length extra <= 2)%nat
    /\ (forall n, In n extra -> 0 < n <= count)
    /\ (enable_proxy pm = false
        \/ count <= Z.of_nat (length (valid_proxies now (remove_expired_proxies now pm))) ->
        extra = []).
Proof.
  cbv zeta. destruct (enable_proxy pm) eqn:Hen.
  - destruct (get_proxies_for_concurrent_tasks_hands_out get_proxies now count pm Hen)
      as (selected & _ & _ & _ & -> & _).
    unfold replenished.
    set (pm0 := remove_expired_proxies now pm).
    pose proof (valid_proxies_length now pm0) as Hvalid0.
    set (needed := Z.max 0 (count - Z.of_nat (length (proxies pm0)))).
    set (pm1 := if 0 <? needed then _ else pm0).
    assert (H1 : exists extra1,
               requests pm1 = requests pm ++ extra1
               /\ (extra1 = [] \/ extra1 = [needed] /\ 0 < needed)
               /\ (needed = 0 -> pm1 = pm0)).
    { unfold pm1. destruct (Z.ltb_spec 0 needed) as [Hpos|Hzero].
      - destruct (replenish_pool_if_needed_requests needed false pm0)
          as (extra1 & -> & [->| ->] & _); eexists; split_and!; eauto; lia.
      - exists []. rewrite app_nil_r. auto. }
    destruct H1 as (extra1 & Hreq1 & Hextra1 & Hsame).
    set (short := count - Z.of_nat (length (valid_proxies now pm1))).
    destruct (Z.ltb_spec (Z.of_nat (length (valid_proxies now pm1))) count) as [Hshort|Henough].
    + destruct (replenish_pool_if_needed_requests short true pm1)
        as (extra2 & -> & Hextra2 & _).
      exists (extra1 ++ extra2). rewrite Hreq1, <- app_assoc. split_and!.
      * done.
      * rewrite length_app.
        destruct Hextra1 as [->|[-> _]]; destruct Hextra2 as [->| ->]; simpl; lia.
      * intros n Hn. apply in_app_or in Hn as [Hn|Hn].
        -- destruct Hextra1 as [->|[-> Hpos]]; [done|].
           destruct Hn as [<-|[]]. unfold needed in *. lia.
        -- destruct Hextra2 as [->| ->]; [done|].
           destruct Hn as [<-|[]]. unfold short. lia.
      * intros [Hdis|Hcount]; [done|].
        assert (needed = 0) as Hz by (unfold needed; lia).
        rewrite (Hsame Hz) in Hshort. lia.
    + exists extra1. split_and!.
      * done.
      * destruct Hextra1 as [->|[-> _]]; simpl; lia.
      * intros n Hn. destruct Hextra1 as [->|[-> Hpos]]; [done|].
        destruct Hn as [<-|[]]. unfold needed in *. lia.
      * intros [Hdis|Hcount]; [done|].
        destruct Hextra1 as [->|[-> Hpos]]; [done|]. unfold needed in Hpos. lia.
  - rewrite get_proxies_for_concurrent_tasks_eq, Hen. simpl.
    exists []. rewrite app_nil_r. split_and!; [done | simpl; lia | intros n [] | done].
Qed.

Lemma fresh_pool_replenished now count leases reqs :
  (forall lease, In lease leases -> now + 60 < expired_time_ts lease) ->
  count <= Z.of_nat (length leases) ->
  replenished get_proxies now count (mkManager true (List.map new_proxy leases) reqs)
  = mkManager true (List.map new_proxy leases) reqs
  /\ valid_proxies now (mkManager true (List.map new_proxy leases) reqs)
     = indexed (List.map new_proxy leases).
Proof.
  intros Hfresh Hcount.
  set (pm1 := mkManager true (List.map new_proxy leases) reqs).
  assert (Hvalid : valid_proxies now pm1 = indexed (List.map new_proxy leases)).
  { unfold valid_proxies. simpl. apply filter_true. intros [i q] Hq.
    apply indexed_In, list_elem_of_lookup_2, list_elem_of_In in Hq.
    apply in_map_iff in Hq as (lease & <- & Hlease). apply Hfresh in Hlease.
    unfold clears_margin, time_until_expiry, proxy_replacement_threshold. simpl.
    apply Z.ltb_lt. lia. }
  assert (Hremove : remove_expired_proxies now pm1 = pm1).
  { unfold remove_expired_proxies, pm1. simpl. f_equal. apply filter_true.
    intros q Hq. apply in_map_iff in Hq as (lease & <- & Hlease).
    apply Hfresh in Hlease. unfold is_expired. simpl.
    apply negb_true_iff, Z.leb_gt. lia. }
  split; [|done]. unfold replenished. rewrite Hremove.
  replace (0 <? Z.max 0 (count - Z.of_nat (length (proxies pm1)))) with false.
  - rewrite Hvalid. unfold indexed. rewrite length_imap, length_map.
    by destruct (Z.ltb_spec (Z.of_nat (length leases)) count); [lia|].
  - symmetry. apply Z.ltb_ge. simpl. rewrite length_map. lia.
Qed.

(** X22. The scheduler fills the pool with [initialize_pool] and then asks
    for the proxies of its tasks.  When the provider answers the first
    request with leases that all have more than 60 seconds left, a request
    for [count] proxies, [count] at most their number, returns the first
    [count] leases in the order of the provider, each marked used once, and
    asks the provider for nothing more.  What the pool held before, usage
    statistics included, plays no part. *)
Theorem initialize_pool_then_concurrent now size count pm leases :
  enable_proxy pm = true ->
  get_proxies (length (requests pm)) size = Some leases ->
  (forall lease, In lease leases -> now + 60 < expired_time_ts lease) ->
  0 <= count <= Z.of_nat (length leases) ->
  let r := get_proxies_for_concurrent_tasks get_proxies now count
             (initialize_pool get_proxies size pm) in
  r.1 = List.map (fun lease => Some (mark_used now (new_proxy lease)))
          (take (Z.to_nat count) leases)
  /\ requests r.2 = requests pm ++ [size].
Proof.
  intros Hen Hget Hfresh Hcount. cbv zeta.
  assert (Hinit : initialize_pool get_proxies size pm
                  = mkManager true (List.map new_proxy leases) (requests pm ++ [size])).
  { unfold initialize_pool. rewrite Hen. simpl. by rewrite Hget. }
  rewrite Hinit, get_proxies_for_concurrent_tasks_eq. cbn [enable_proxy negb].
  destruct (fresh_pool_replenished now count leases (requests pm ++ [size]) Hfresh)
    as [-> ->]; [lia|].
  assert (Hlen : length (indexed (List.map new_proxy leases)) = length leases).
  { unfold indexed. by rewrite length_imap, length_map. }
  replace (Z.of_nat (length (indexed (List.map new_proxy leases))) <? count) with false
    by (symmetry; apply Z.ltb_ge; lia).
  unfold select_many_from. simpl. split; [|done].
  rewrite stable_sort_equal.
  2:{ intros [i a] [j b] Ha Hb.
      apply indexed_In, list_elem_of_lookup_2, list_elem_of_In, in_map_iff in Ha
        as (la & <- & _).
      apply indexed_In, list_elem_of_lookup_2, list_elem_of_In, in_map_iff in Hb
        as (lb & <- & _).
      done. }
  rewrite Hlen.
  replace (Z.to_nat (Z.min count (Z.of_nat (length leases)))) with (Z.to_nat count) by lia.
  unfold padded.
  replace (List.map (fun e : nat * ProxyInfo => mark_used now e.2)
             (take (Z.to_nat count) (indexed (List.map new_proxy leases))))
    with (List.map (fun lease => mark_used now (new_proxy lease))
            (take (Z.to_nat count) leases)).
  - rewrite length_map, length_take.
    replace (Z.to_nat (count - _)) with 0%nat by lia.
    simpl. rewrite app_nil_r. by rewrite List.map_map.
  - rewrite map_take_indexed. change (List.map ?f ?l) with (f <$> l).
    by rewrite <- fmap_take, <- list_fmap_compose.
Qed.


Lemma get_proxies_for_concurrent_tasks_length now count pm :
  length (get_proxies_for_concurrent_tasks get_proxies now count pm).1 = Z.to_nat count.
Proof.
  destruct (enable_proxy pm) eqn:Hen.
  - destruct (get_proxies_for_concurrent_tasks_hands_out get_proxies now count pm Hen)
      as (selected & -> & Hlen & _).
    unfold padded. rewrite length_app, length_map, length_replicate. lia.
  - rewrite get_proxies_for_concurrent_tasks_eq, Hen. simpl. by rewrite length_replicate.
Qed.


End Selection.


(** The first proxy the stand-in provider hands out at time 1000. *)
Definition first_mock_proxy : ProxyInfo :=
  new_proxy (mkIp "192.168.0.0" 8080 "mockuser" "mockpass" 1300 "http").

Lemma get_proxy_least_recently_used_witness :
  exists q,
    mark_used 1000 first_mock_proxy = mark_used 1000 q
    /\ In (mark_used 1000 first_mock_proxy)
         (proxies (get_proxy (mock_get_proxies 1000) 1000 sample_manager).2)
    /\ forall r,
         In r (proxies (get_proxy (mock_get_proxies 1000) 1000 sample_manager).2) ->
         clears_margin 1000 r = true ->
         r = mark_used 1000 first_mock_proxy \/ key_leb q r = true.
Proof.
  apply (get_proxy_least_recently_used (mock_get_proxies 1000) 1000 sample_manager
           (mark_used 1000 first_mock_proxy)
           (get_proxy (mock_get_proxies 1000) 1000 sample_manager).2).
  reflexivity.
Defined.


(** Two tasks on [sample_manager] at time 1000: the expired proxy is
    dropped, one proxy is asked of the provider, and the new proxy comes
    before the pooled one, which was used before. *)
Example get_proxies_for_concurrent_tasks_sample :
  (get_proxies_for_concurrent_tasks (mock_get_proxies 1000) 1000 2 sample_manager).1
  = [ Some (mark_used 1000 first_mock_proxy);
      Some (mkProxy (mkIp "10.0.0.2" 8080 "u" "p" 1500 "http") 1000 true 2) ]
  /\ requests
       (get_proxies_for_concurrent_tasks (mock_get_proxies 1000) 1000 2 sample_manager).2
     = [1].
Proof. split; reflexivity. Qed.

Lemma initialize_pool_then_concurrent_witness :
  (get_proxies_for_concurrent_tasks (mock_get_proxies 1000) 1000 2
     (initialize_pool (mock_get_proxies 1000) 3 sample_manager)).1
  = List.map (fun lease => Some (mark_used 1000 (new_proxy lease)))
      (take (Z.to_nat 2)
         [ mkIp "192.168.0.0" 8080 "mockuser" "mockpass" 1300 "http";
           mkIp "192.168.0.1" 8081 "mockuser" "mockpass" 1300 "http";
           mkIp "192.168.0.2" 8082 "mockuser" "mockpass" 1300 "http" ])
  /\ requests
       (get_proxies_for_concurrent_tasks (mock_get_proxies 1000) 1000 2
          (initialize_pool (mock_get_proxies 1000) 3 sample_manager)).2
     = requests sample_manager ++ [3].
Proof.
  apply (initialize_pool_then_concurrent (mock_get_proxies 1000) 1000 3 2 sample_manager).
  - reflexivity.
  - reflexivity.
  - intros lease [<-|[<-|[<-|[]]]]; simpl; lia.
  - simpl. lia.
Defined.


End Proxy.

(* ===================================================================== *)
(** ** sdk/account_manager.py : accounts for concurrent tasks *)
(* ===================================================================== *)

Module Accounts.

(** [Account] (lines 5-29); [cookies] and [login_time] are not used here. *)
Record Account := mkAccount {
  platform : string;
  username : string;
  password : string;
  is_logged_in : bool;
  last_used : Z;
  task_count : Z
}.

(** [mark_used]: [self.last_used = time.time()], [self.task_count += 1] *)
Definition mark_used (now : Z) (a : Account) : Account :=
  {| platform := platform a;
     username := username a;
     password := password a;
     is_logged_in := is_logged_in a;
     last_used := now;
     task_count := task_count a + 1 |}.

(** Sort key [(x.last_used, x.task_count)]. *)
Definition key_leb (a b : Account) : bool :=
  (last_used a <? last_used b)
  || ((last_used a =? last_used b) && (task_count a <=? task_count b)).

(** How many slots of the returned list hold the account at [index]. *)
Definition occurrences (index : nat) (available : list nat) : nat :=
  length (List.filter (Nat.eqb index) available).

Section Tasks.
(** [clock k] is what [time.time()] reads when the [k]-th slot (from 0) is
    filled; [choice k] is the draw behind [random.choice] for that slot,
    reduced modulo the number of accounts. *)
Variable clock : nat -> Z.
Variable choice : nat -> nat.

(** [account.mark_used(); available_accounts.append(account)] for the account
    at [index]: the list of references handed out so far and the accounts of
    the platform. *)
Definition use_slot (index : nat) (st : list nat * list Account)
  : list nat * list Account :=
  (st.1 ++ [index], alter (mark_used (clock (length st.1))) index st.2).

(** [while len(available_accounts) < count] (lines 101-105) *)
Fixpoint reuse (fuel : nat) (count : Z) (st : list nat * list Account)
  : list nat * list Account :=
  match fuel with
  | O => st
  | S fuel' =>
      if Z.of_nat (length st.1) <? count
      then reuse fuel' count
             (use_slot (choice (length st.1) mod length st.2) st)
      else st
  end.

(** [get_accounts_for_concurrent_tasks] (lines 73-107).  The result lists
    positions in the platform's list, which the call has sorted in place. *)
Definition get_accounts_for_concurrent_tasks
    (accounts : gmap string (list Account)) (platform : string) (count : Z)
  : list nat * gmap string (list Account) :=
  match accounts !! platform with
  | None | Some [] => ([], accounts)
  | Some platform_accounts =>
      let sorted := stable_sort key_leb platform_accounts in
      let first := Z.to_nat (Z.min count (Z.of_nat (length sorted))) in
      let st := foldl (fun st i => use_slot i st) ([], sorted) (seq 0 first) in
      let st := reuse (Z.to_nat count) count st in
      (st.1, <[platform := st.2]> accounts)
  end.

(** What the state of the loops records about the accounts [base] the call
    started from (the sorted list): every reference is a position of the
    list, and the account at each position has been marked once per slot
    that holds it, the last time when one of these slots was filled. *)
Definition tracks (base : list Account) (st : list nat * list Account) : Prop :=
  length st.2 = length base
  /\ (forall index, In index st.1 -> (index < length base)%nat)
  /\ forall index before, base !! index = Some before ->
       exists after,
         st.2 !! index = Some after
         /\ task_count after = task_count before + Z.of_nat (occurrences index st.1)
         /\ (In index st.1 ->
             exists k, st.1 !! k = Some index /\ last_used after = clock k).

Lemma occurrences_snoc index available i :
  occurrences index (available ++ [i])
  = (occurrences index available + (if Nat.eqb index i then 1 else 0))%nat.
Proof.
  unfold occurrences. rewrite List.filter_app, length_app. simpl.
  by destruct (Nat.eqb index i).
Qed.

Lemma tracks_init base : tracks base ([], base).
Proof.
  split_and!; [done | intros index [] |].
  intros index before Hbefore. exists before.
  split_and!; [done | unfold occurrences; simpl; lia | intros []].
Qed.

Lemma use_slot_tracks base st i :
  (i < length base)%nat -> tracks base st -> tracks base (use_slot i st).
Proof.
  intros Hi (Hlen & Hrefs & Hacc). unfold use_slot. split_and!; simpl.
  - by rewrite length_alter.
  - intros index Hin. apply in_app_or in Hin as [Hin|[<-|[]]]; [by apply Hrefs | done].
  - intros index before Hbefore.
    destruct (Hacc index before Hbefore) as (after & Hafter & Htasks & Hused).
    rewrite occurrences_snoc.
    destruct (Nat.eqb_spec index i) as [->|Hne].
    + exists (mark_used (clock (length st.1)) after). split_and!.
      * by rewrite list_lookup_alter_eq, Hafter.
      * simpl. lia.
      * intros _. exists (length st.1). split; [|done].
        by rewrite list_lookup_middle.
    + exists after. split_and!.
      * by rewrite list_lookup_alter_ne.
      * lia.
      * intros Hin. apply in_app_or in Hin as [Hin|[->|[]]]; [|done].
        destruct (Hused Hin) as (k & Hk & Hclock). exists k. split; [|done].
        rewrite lookup_app_l; [done|]. by eapply lookup_lt_Some.
Qed.

(** The [for] loop (lines 95-98): the first [n] accounts of the sorted list,
    in order. *)
Lemma first_loop_tracks base n :
  (n <= length base)%nat ->
  (foldl (fun st i => use_slot i st) ([], base) (seq 0 n)).1 = seq 0 n
  /\ tracks base (foldl (fun st i => use_slot i st) ([], base) (seq 0 n)).
Proof.
  induction n as [|n IH]; intros Hn.
  - split; [done | apply tracks_init].
  - destruct IH as [Hrefs Htracks]; [lia|].
    rewrite seq_S, foldl_app. simpl. split.
    + f_equal. exact Hrefs.
    + apply use_slot_tracks; [lia | done].
Qed.

(** The [while] loop (lines 101-105): it keeps what it is given, adds
    references to existing accounts, and stops at [count] references. *)
Lemma reuse_tracks base fuel count : forall st,
  (0 < length base)%nat ->
  tracks base st ->
  tracks base (reuse fuel count st)
  /\ (exists extra, (reuse fuel count st).1 = st.1 ++ extra)
  /\ (count - Z.of_nat (length st.1) <= Z.of_nat fuel ->
      Z.of_nat (length (reuse fuel count st).1) = Z.max count (Z.of_nat (length st.1))).
Proof.
  induction fuel as [|fuel IH]; intros st Hbase Htracks; simpl.
  - split_and!; [done | exists []; by rewrite app_nil_r | lia].
  - destruct (Z.ltb_spec (Z.of_nat (length st.1)) count) as [Hlt|Hge].
    + set (i := (choice (length st.1) mod length st.2)%nat).
      assert (Hi : (i < length base)%nat).
      { destruct Htracks as (Hlen & _). rewrite <- Hlen.
        apply Nat.mod_upper_bound. lia. }
      destruct (IH (use_slot i st) Hbase (use_slot_tracks base st i Hi Htracks))
        as (Ht & (extra & Hextra) & Hcount).
      split_and!; [done | |].
      * exists (i :: extra). rewrite Hextra. simpl. by rewrite <- app_assoc.
      * intros Hfuel. rewrite Hcount; simpl; rewrite length_app; simpl; lia.
    + split_and!; [done | exists []; by rewrite app_nil_r | lia].
Qed.

Lemma occurrences_In index available :
  In index available -> (1 <= occurrences index available)%nat.
Proof.
  intros Hin. unfold occurrences.
  assert (Hf : In index (List.filter (Nat.eqb index) available)).
  { apply filter_In. split; [done | apply Nat.eqb_refl]. }
  destruct (List.filter (Nat.eqb index) available); [done | simpl; lia].
Qed.

(** C10.  For a requested count of at least 1: a platform that is not
    registered, or has no account, gives the empty list and changes nothing.
    Otherwise the call returns exactly [count] references into the
    platform's accounts (sorted in place by [(last_used, task_count)]): first
    the accounts in sorted order, as many as there are up to [count], then
    references to accounts of the same list again when there are fewer than
    [count].  The account behind every slot has had [task_count] raised by
    one for each slot that holds it, and its [last_used] is the clock reading
    taken when one of these slots was filled. *)
Theorem get_accounts_for_concurrent_tasks_spec accounts platform count :
  1 <= count ->
  match accounts !! platform with
  | None | Some [] =>
      get_accounts_for_concurrent_tasks accounts platform count = ([], accounts)
  | Some platform_accounts =>
      let sorted := stable_sort key_leb platform_accounts in
      let first := Z.to_nat (Z.min count (Z.of_nat (length sorted))) in
      let result := get_accounts_for_concurrent_tasks accounts platform count in
      exists final,
        result.2 = <[platform := final]> accounts
        /\ Z.of_nat (length result.1) = count
        /\ take first result.1 = seq 0 first
        /\ forall slot index, result.1 !! slot = Some index ->
             exists before after,
               sorted !! index = Some before
               /\ final !! index = Some after
               /\ (1 <= occurrences index result.1)%nat
               /\ task_count after
                  = task_count before + Z.of_nat (occurrences index result.1)
               /\ exists k, result.1 !! k = Some index /\ last_used after = clock k
  end.
Proof.
  intros Hcount. unfold get_accounts_for_concurrent_tasks.
  destruct (accounts !! platform) as [[|a0 platform_accounts]|] eqn:Hlookup; [done| |done].
  set (sorted := stable_sort key_leb (a0 :: platform_accounts)).
  set (first := Z.to_nat (Z.min count (Z.of_nat (length sorted)))).
  assert (Hsorted : (0 < length sorted)%nat).
  { destruct sorted eqn:Heq; [|simpl; lia]. by apply stable_sort_nil in Heq. }
  destruct (first_loop_tracks sorted first) as [Hrefs Htracks]; [unfold first; lia|].
  set (st1 := foldl (fun st i => use_slot i st) ([], sorted) (seq 0 first)) in *.
  destruct (reuse_tracks sorted (Z.to_nat count) count st1 Hsorted Htracks)
    as (Hfinal & (extra & Hextra) & Hlen).
  set (st2 := reuse (Z.to_nat count) count st1) in *.
  cbv zeta. exists st2.2. cbn [fst snd]. split_and!.
  - done.
  - rewrite Hlen; rewrite Hrefs, length_seq; unfold first; lia.
  - rewrite Hextra, Hrefs. apply take_app_length'. by rewrite length_seq.
  - intros slot index Hslot.
    assert (Hin : In index st2.1).
    { apply list_elem_of_In, list_elem_of_lookup. by exists slot. }
    destruct Hfinal as (Hlen2 & Hbound & Hacc).
    destruct (lookup_lt_is_Some_2 sorted index (Hbound index Hin)) as [before Hbefore].
    destruct (Hacc index before Hbefore) as (after & Hafter & Htasks & Hused).
    exists before, after. split_and!; try done.
    + by apply occurrences_In.
    + by apply Hused.
Qed.

End Tasks.

(** Two weibo accounts and a request for three: the least recently used
    comes first, and the third slot reuses one of the two. *)
Definition sample_accounts : gmap string (list Account) :=
  {[ "weibo"%string :=
       [ mkAccount "weibo" "u1" "p1" true 50 2;
         mkAccount "weibo" "u2" "p2" true 20 7 ] ]}.

Definition sample_clock (k : nat) : Z := 100 + Z.of_nat k.
Definition sample_choice (k : nat) : nat := 5.

Lemma get_accounts_for_concurrent_tasks_spec_witness :
  1 <= 3
  /\ match sample_accounts !! "weibo"%string with
     | None | Some [] =>
         get_accounts_for_concurrent_tasks sample_clock sample_choice
           sample_accounts "weibo" 3 = ([], sample_accounts)
     | Some platform_accounts =>
         let sorted := stable_sort key_leb platform_accounts in
         let first := Z.to_nat (Z.min 3 (Z.of_nat (length sorted))) in
         let result := get_accounts_for_concurrent_tasks sample_clock sample_choice
                         sample_accounts "weibo" 3 in
         exists final,
           result.2 = <["weibo"%string := final]> sample_accounts
           /\ Z.of_nat (length result.1) = 3
           /\ take first result.1 = seq 0 first
           /\ forall slot index, result.1 !! slot = Some index ->
                exists before after,
                  sorted !! index = Some before
                  /\ final !! index = Some after
                  /\ (1 <= occurrences index result.1)%nat
                  /\ task_count after
                     = task_count before + Z.of_nat (occurrences index result.1)
                  /\ exists k, result.1 !! k = Some index
                               /\ last_used after = sample_clock k
     end.
Proof.
  split; [lia|].
  apply (get_accounts_for_concurrent_tasks_spec sample_clock sample_choice
           sample_accounts "weibo" 3).
  lia.
Defined.

Example get_accounts_for_concurrent_tasks_sample :
  (get_accounts_for_concurrent_tasks sample_clock sample_choice
     sample_accounts "weibo" 3).1 = [0; 1; 1]%nat
  /\ (get_accounts_for_concurrent_tasks sample_clock sample_choice
        sample_accounts "weibo" 3).2 !! "weibo"%string
     = Some [ mkAccount "weibo" "u2" "p2" true 100 8;
              mkAccount "weibo" "u1" "p1" true 102 4 ].
Proof. split; reflexivity. Qed.

(** *** One account at a time *)

(** [Account(platform, username, password)] *)
Definition new_account (platform username password : string) : Account :=
  mkAccount platform username password false 0 0.

(** [add_account] (lines 38-51) *)
Definition add_account (accounts : gmap string (list Account))
    (platform username password : string) : gmap string (list Account) :=
  <[platform := default [] (accounts !! platform)
                ++ [new_account platform username password]]> accounts.

(** [get_available_account] (lines 53-71): the platform's list is sorted in
    place and its first account marked used. *)
Definition get_available_account (now : Z) (accounts : gmap string (list Account))
    (platform : string) : option Account * gmap string (list Account) :=
  match accounts !! platform with
  | None | Some [] => (None, accounts)
  | Some platform_accounts =>
      match stable_sort key_leb platform_accounts with
      | account :: rest =>
          (Some (mark_used now account),
           <[platform := mark_used now account :: rest]> accounts)
      | [] => (None, accounts)      (* not reached: the list is not empty *)
      end
  end.

Lemma account_key_leb_total a b : key_leb a b = true \/ key_leb b a = true.
Proof.
  unfold key_leb.
  destruct (Z.ltb_spec (last_used a) (last_used b)),
           (Z.ltb_spec (last_used b) (last_used a)),
           (Z.eqb_spec (last_used a) (last_used b)),
           (Z.eqb_spec (last_used b) (last_used a)),
           (Z.leb_spec (task_count a) (task_count b)),
           (Z.leb_spec (task_count b) (task_count a));
    simpl; auto; lia.
Qed.

Lemma account_key_leb_trans a b c :
  key_leb a b = true -> key_leb b c = true -> key_leb a c = true.
Proof.
  unfold key_leb.
  destruct (Z.ltb_spec (last_used a) (last_used b)),
           (Z.ltb_spec (last_used b) (last_used c)),
           (Z.ltb_spec (last_used a) (last_used c)),
           (Z.eqb_spec (last_used a) (last_used b)),
           (Z.eqb_spec (last_used b) (last_used c)),
           (Z.eqb_spec (last_used a) (last_used c)),
           (Z.leb_spec (task_count a) (task_count b)),
           (Z.leb_spec (task_count b) (task_count c)),
           (Z.leb_spec (task_count a) (task_count c));
    simpl; try done; lia.
Qed.

Lemma key_leb_last_used a b : key_leb a b = true -> last_used a <= last_used b.
Proof.
  unfold key_leb.
  destruct (Z.ltb_spec (last_used a) (last_used b)),
           (Z.eqb_spec (last_used a) (last_used b)); simpl; try done; lia.
Qed.

(** What [get_available_account] returns on a platform that has accounts. *)
Lemma get_available_account_Some now accounts platform old :
  accounts !! platform = Some old -> old <> [] ->
  exists before rest,
    stable_sort key_leb old = before :: rest
    /\ get_available_account now accounts platform
       = (Some (mark_used now before),
          <[platform := mark_used now before :: rest]> accounts)
    /\ In before old
    /\ (forall other, In other old -> key_leb before other = true)
    /\ before :: rest ≡ₚ old.
Proof.
  intros Hold Hne. unfold get_available_account. rewrite Hold.
  destruct (stable_sort key_leb old) as [|before rest] eqn:Hsort.
  { by apply stable_sort_nil in Hsort. }
  destruct (stable_sort_head_min key_leb account_key_leb_total account_key_leb_trans
              old before rest Hsort) as [Hin Hmin].
  exists before, rest. split_and!; try done.
  - by destruct old.
  - rewrite <- Hsort. apply stable_sort_Permutation.
Qed.

(** X23. [get_available_account] returns [None], and changes nothing,
    exactly when the platform is not registered or has no account.
    Otherwise it returns the account of the platform with the least
    [(last_used, task_count)], marked used at the time of the call; the
    platform keeps the same accounts, reordered with the returned one
    first, and the other platforms are untouched. *)
Theorem get_available_account_spec now accounts platform :
  match get_available_account now accounts platform with
  | (None, accounts') =>
      accounts' = accounts
      /\ (accounts !! platform = None \/ accounts !! platform = Some [])
  | (Some account, accounts') =>
      exists old before rest,
        accounts !! platform = Some old
        /\ account = mark_used now before
        /\ In before old
        /\ (forall other, In other old -> key_leb before other = true)
        /\ before :: rest ≡ₚ old
        /\ accounts' !! platform = Some (account :: rest)
        /\ forall other_platform, other_platform <> platform ->
             accounts' !! other_platform = accounts !! other_platform
  end.
Proof.
  destruct (accounts !! platform) as [old|] eqn:Hold.
  - destruct (decide (old = [])) as [->|Hne].
    + unfold get_available_account. rewrite Hold. auto.
    + destruct (get_available_account_Some now accounts platform old Hold Hne)
        as (before & rest & _ & -> & Hin & Hmin & Hperm).
      exists old, before, rest. split_and!; try done.
      * by rewrite lookup_insert_eq.
      * intros other Hother. by rewrite lookup_insert_ne.
  - unfold get_available_account. rewrite Hold. auto.
Qed.

(** X24. An account that has just been added is found: on a platform
    whose other accounts have all been used before (their [last_used] is
    positive), [get_available_account] right after [add_account] returns
    the new account, marked used for the first time. *)
Theorem add_account_then_available now accounts platform username password :
  (forall a, In a (default [] (accounts !! platform)) -> 0 < last_used a) ->
  (get_available_account now (add_account accounts platform username password) platform).1
  = Some (mkAccount platform username password false now 1).
Proof.
  intros Hused. set (new := new_account platform username password).
  set (old := default [] (accounts !! platform)) in *.
  destruct (get_available_account_Some now
              (add_account accounts platform username password) platform (old ++ [new]))
    as (before & rest & _ & -> & Hin & Hmin & _).
  { unfold add_account. by rewrite lookup_insert_eq. }
  { by destruct old. }
  simpl. f_equal.
  apply in_app_or in Hin as [Hin|[<-|[]]]; [|done].
  assert (Hle : key_leb before new = true).
  { apply Hmin. apply in_or_app. right. by left. }
  apply key_leb_last_used in Hle. apply Hused in Hin. simpl in Hle. lia.
Qed.

(** X25. Round-robin: with at least two accounts on the platform and a
    clock that is beyond every recorded use, the account returned by one
    call of [get_available_account] is not the one returned by the next
    call: the second call returns an account last used before the first
    call. *)
Theorem get_available_account_alternates now now' accounts platform old
    first accounts1 second accounts2 :
  accounts !! platform = Some old ->
  (2 <= length old)%nat ->
  (forall a, In a old -> last_used a < now) ->
  get_available_account now accounts platform = (Some first, accounts1) ->
  get_available_account now' accounts1 platform = (Some second, accounts2) ->
  last_used first = now
  /\ exists before, second = mark_used now' before
       /\ In before old /\ last_used before < now.
Proof.
  intros Hold Hlen Hused Hfirst Hsecond.
  destruct (get_available_account_Some now accounts platform old Hold)
    as (before1 & rest1 & _ & Heq1 & Hin1 & _ & Hperm1).
  { intros ->. simpl in Hlen. lia. }
  rewrite Heq1 in Hfirst. injection Hfirst as <- <-.
  split; [done|].
  destruct (get_available_account_Some now' (<[platform := mark_used now before1 :: rest1]> accounts)
              platform (mark_used now before1 :: rest1))
    as (before2 & rest2 & _ & Heq2 & Hin2 & Hmin2 & _).
  { by rewrite lookup_insert_eq. }
  { done. }
  rewrite Heq2 in Hsecond. injection Hsecond as <- <-.
  exists before2. split; [done|].
  assert (Hrest : forall a, In a rest1 -> In a old).
  { intros a Ha. apply list_elem_of_In. rewrite <- Hperm1. right. by apply list_elem_of_In. }
  destruct rest1 as [|other rest1].
  { apply Permutation_length in Hperm1. simpl in Hperm1. lia. }
  assert (Hother : last_used other < now) by (apply Hused, Hrest; by left).
  assert (Hle : key_leb before2 other = true) by (apply Hmin2; right; by left).
  apply key_leb_last_used in Hle.
  destruct Hin2 as [<-|Hin2]; [simpl in Hle; lia|].
  split; [by apply Hrest | lia].
Qed.

Lemma add_account_then_available_witness :
  (get_available_account 200 (add_account sample_accounts "weibo" "u3" "p3") "weibo").1
  = Some (mkAccount "weibo" "u3" "p3" false 200 1).
Proof.
  apply (add_account_then_available 200 sample_accounts "weibo" "u3" "p3").
  intros a [<-|[<-|[]]]; simpl; lia.
Defined.

Lemma get_available_account_alternates_witness :
  last_used (mkAccount "weibo" "u2" "p2" true 100 8) = 100
  /\ exists before,
       mkAccount "weibo" "u1" "p1" true 101 3 = mark_used 101 before
       /\ In before [ mkAccount "weibo" "u1" "p1" true 50 2;
                      mkAccount "weibo" "u2" "p2" true 20 7 ]
       /\ last_used before < 100.
Proof.
  apply (get_available_account_alternates 100 101 sample_accounts "weibo"
           [ mkAccount "weibo" "u1" "p1" true 50 2;
             mkAccount "weibo" "u2" "p2" true 20 7 ]
           (mkAccount "weibo" "u2" "p2" true 100 8)
           (get_available_account 100 sample_accounts "weibo").2
           (mkAccount "weibo" "u1" "p1" true 101 3)
           (get_available_account 101
              (get_available_account 100 sample_accounts "weibo").2 "weibo").2).
  - reflexivity.
  - simpl. lia.
  - intros a [<-|[<-|[]]]; simpl; lia.
  - reflexivity.
  - reflexivity.
Defined.


(** On a platform that has accounts the call fills exactly [count] slots. *)
Lemma get_accounts_for_concurrent_tasks_length clock choice accounts platform count a l :
  accounts !! platform = Some (a :: l) ->
  0 <= count ->
  Z.of_nat (length (get_accounts_for_concurrent_tasks clock choice
                      accounts platform count).1) = count.
Proof.
  intros Hlookup Hcount. unfold get_accounts_for_concurrent_tasks. rewrite Hlookup.
  set (sorted := stable_sort key_leb (a :: l)).
  set (first := Z.to_nat (Z.min count (Z.of_nat (length sorted)))).
  assert (Hsorted : (0 < length sorted)%nat).
  { destruct sorted eqn:Heq; [|simpl; lia]. by apply stable_sort_nil in Heq. }
  destruct (first_loop_tracks clock sorted first) as [Hrefs Htracks]; [unfold first; lia|].
  set (st1 := foldl (fun st i => use_slot clock i st) ([], sorted) (seq 0 first)) in *.
  destruct (reuse_tracks clock choice sorted (Z.to_nat count) count st1 Hsorted Htracks)
    as (_ & _ & Hlen).
  cbn [fst]. rewrite Hlen; rewrite Hrefs, length_seq; unfold first; lia.
Qed.


End Accounts.

(* ===================================================================== *)
(** ** comment.py : fetching the comments of one post *)
(* ===================================================================== *)

Module Fetch.

Section Client.
(** A comment, as the client returns it. *)
Variable comment : Type.

(** A reply of [wb_client.get_note_comments], the defaults of [.get]
    applied ([max_id] and [max_id_type] 0, [data] empty). *)
Record comments_res := mkRes {
  res_max_id : Z;
  res_max_id_type : Z;
  res_data : list comment
}.

(** The client.  [get_note_all_comments] is the first try of
    [_fetch_comments_with_retry]: the comments, or the message of the
    exception.  [get_note_comments k max_id max_id_type] is the [k]-th
    request (from 0) of the alternative method, [get_page page] the request
    of the paged method; [None] when the request raises. *)
Variable get_note_all_comments : list comment + string.
Variable get_note_comments : nat -> Z -> Z -> option comments_res.
Variable get_page : Z -> option (list comment).

Definition len (l : list comment) : Z := Z.of_nat (length l).

(** The [while] loop of [_fetch_comments_alternative] (lines 312-337), entered
    with [is_end] false; the result is the list and the number of requests
    made.  [None]: out of fuel. *)
Fixpoint alternative_loop (fuel requests : nat) (max_comments max_id max_id_type : Z)
    (comments : list comment) : option (list comment * nat) :=
  if len comments <? max_comments then
    match fuel with
    | O => None
    | S fuel' =>
        match get_note_comments requests max_id max_id_type with
        | None => Some (comments, S requests)                  (* except: break *)
        | Some res =>
            let comment_list := res_data res in
            let is_end :=
              (res_max_id res =? 0) || match comment_list with [] => true | _ => false end in
            let comment_list :=
              if max_comments <? len comments + len comment_list
              then take (Z.to_nat (max_comments - len comments)) comment_list
              else comment_list in
            let comments := comments ++ comment_list in
            if is_end then Some (comments, S requests)
            else alternative_loop fuel' (S requests) max_comments
                   (res_max_id res) (res_max_id_type res) comments
        end
    end
  else Some (comments, requests).

(** [_fetch_comments_alternative] (lines 304-339) *)
Definition fetch_comments_alternative (max_comments : Z) : option (list comment * nat) :=
  alternative_loop (Z.to_nat max_comments) 0 max_comments 0 0 [].

(** The [while] loop of [_fetch_comments_paged] (lines 348-378): the list and
    the pages requested, in order. *)
Fixpoint paged_loop (fuel : nat) (max_pages max_comments page : Z)
    (comments : list comment) (pages : list Z) : option (list comment * list Z) :=
  if (page <=? max_pages) && (len comments <? max_comments) then
    match fuel with
    | O => None
    | S fuel' =>
        match get_page page with
        | None => Some (comments, pages ++ [page])              (* except: break *)
        | Some [] => Some (comments, pages ++ [page])           (* break *)
        | Some comment_list =>
            paged_loop fuel' max_pages max_comments (page + 1)
              (comments ++ take (Z.to_nat (max_comments - len comments)) comment_list)
              (pages ++ [page])
        end
    end
  else Some (comments, pages).

(** [page_size = 20], [max_pages = (max_comments + page_size - 1) // page_size] *)
Definition page_size : Z := 20.
Definition max_pages (max_comments : Z) : Z := (max_comments + page_size - 1) / page_size.

(** [_fetch_comments_paged] (lines 341-380) *)
Definition fetch_comments_paged (max_comments : Z) : option (list comment * list Z) :=
  paged_loop (Z.to_nat (max_pages max_comments)) (max_pages max_comments)
    max_comments 1 [] [].

(** What [_fetch_comments_with_retry] does besides fetching. *)
Inductive effect :=
| CountRetry            (* [self.stats["retries"] += 1] *)
| SleepBackoff (retry : nat)
                        (* [asyncio.sleep(jitter_delay)] before retry [retry] *)
| SleepRateLimit        (* [asyncio.sleep(random.uniform(5, 10))] *)
| SleepNetwork          (* [asyncio.sleep(random.uniform(2, 5))] *)
| UpdateCookies.        (* [account.wb_client.update_cookies(...)] *)

Inductive fetched :=
| Returned (comments : list comment)
| Raised (error_message : string)
| OutOfFuel.

(** The [try] body for retry number [retry] (lines 246-270). *)
Definition attempt (retry : nat) (max_comments : Z) : fetched :=
  match retry with
  | O =>
      match get_note_all_comments with
      | inl comments => Returned comments
      | inr error_message => Raised error_message
      end
  | S O =>
      match fetch_comments_alternative max_comments with
      | Some (comments, _) => Returned comments
      | None => OutOfFuel
      end
  | _ =>
      match fetch_comments_paged max_comments with
      | Some (comments, _) => Returned comments
      | None => OutOfFuel
      end
  end.

(** The [except] clause (lines 272-300) for retry number [retry]: what it
    does, and whether it re-raises. *)
Definition on_error (retry : nat) (max_retries : Z) (error_message : string)
  : list effect * bool :=
  let last := Z.of_nat retry =? max_retries - 1 in
  let waits := Z.of_nat retry <? max_retries - 1 in
  if contains "Expecting value" error_message then
    ((if waits then [SleepRateLimit] else []) ++ (if (retry =? 1)%nat then [UpdateCookies] else []),
     false)
  else if contains "Connection" error_message || contains "Timeout" error_message then
    ((if waits then [SleepNetwork] else []) ++ (if (retry =? 1)%nat then [UpdateCookies] else []),
     false)
  else if last then ([], true)
  else (if (retry =? 1)%nat then [UpdateCookies] else [], false).

(** The [for retry in range(max_retries)] loop; [remaining] iterations are
    left and the next has number [retry]. *)
Fixpoint retry_loop (remaining retry : nat) (max_retries max_comments : Z)
    (post_id : string) : list effect * fetched :=
  match remaining with
  | O =>
      ([], Raised ("Failed to get comments after " +:+ pretty max_retries
                   +:+ " retries for post " +:+ post_id))
  | S remaining' =>
      let before := if (0 <? retry)%nat then [CountRetry; SleepBackoff retry] else [] in
      match attempt retry max_comments with
      | Raised error_message =>
          let '(effects, reraise) := on_error retry max_retries error_message in
          if reraise then (before ++ effects, Raised error_message)
          else
            let '(later, result) :=
              retry_loop remaining' (S retry) max_retries max_comments post_id in
            (before ++ effects ++ later, result)
      | result => (before, result)
      end
  end.

(** [_fetch_comments_with_retry] (lines 242-302) *)
Definition fetch_comments_with_retry (post_id : string) (max_retries max_comments : Z)
  : list effect * fetched :=
  retry_loop (Z.to_nat max_retries) 0 max_retries max_comments post_id.

(** *** The two fallback methods *)

Lemma alternative_loop_spec fuel : forall requests max_comments cur_id cur_type comments,
  max_comments - len comments <= Z.of_nat fuel ->
  exists comments' requests',
    alternative_loop fuel requests max_comments cur_id cur_type comments
    = Some (comments', requests')
    /\ len comments' <= Z.max (len comments) max_comments
    /\ Z.of_nat requests' - Z.of_nat requests <= Z.max 0 (max_comments - len comments).
Proof.
  induction fuel as [|fuel IH]; intros requests mc cur_id cur_type comments Hfuel.
  - simpl. destruct (Z.ltb_spec (len comments) mc); [lia|].
    eexists _, _. split; [done | lia].
  - cbn [alternative_loop].
    destruct (Z.ltb_spec (len comments) mc) as [Hlt|Hge];
      [|eexists _, _; split; [done | lia]].
    destruct (get_note_comments requests cur_id cur_type) as [res|];
      [|eexists _, _; split; [done | lia]].
    set (comment_list := if mc <? len comments + len (res_data res)
                         then take (Z.to_nat (mc - len comments)) (res_data res)
                         else res_data res).
    assert (Hsum : len (comments ++ comment_list) <= mc
                   /\ (res_data res <> [] -> len comments < len (comments ++ comment_list))).
    { unfold comment_list, len in *. rewrite length_app.
      destruct (Z.ltb_spec mc (Z.of_nat (length comments) + Z.of_nat (length (res_data res)))).
      - rewrite length_take. split; [lia|]. intros _. lia.
      - split; [lia|]. intros Hne. destruct (res_data res); [done | simpl; lia]. }
    destruct Hsum as [Hsum Hgrow].
    destruct ((res_max_id res =? 0) || match res_data res with [] => true | _ :: _ => false end)
      eqn:Hend.
    + eexists _, _. split; [done | lia].
    + apply orb_false_iff in Hend as [_ Hne].
      assert (res_data res <> []) as Hne' by (by destruct (res_data res)).
      specialize (Hgrow Hne').
      destruct (IH (S requests) mc (res_max_id res) (res_max_id_type res)
                  (comments ++ comment_list)) as (c' & r' & Heq & Hlen & Hreq); [lia|].
      exists c', r'. split; [done | lia].
Qed.

(** X8. [_fetch_comments_alternative] always comes back, whatever the replies
    are, with at most [max_comments] comments and after at most
    [max_comments] requests. *)
Theorem fetch_comments_alternative_bounded max_comments :
  exists comments requests,
    fetch_comments_alternative max_comments = Some (comments, requests)
    /\ len comments <= Z.max 0 max_comments
    /\ Z.of_nat requests <= Z.max 0 max_comments.
Proof.
  unfold fetch_comments_alternative.
  destruct (alternative_loop_spec (Z.to_nat max_comments) 0 max_comments 0 0 [])
    as (c & r & Heq & Hlen & Hreq); [unfold len; simpl; lia|].
  exists c, r. unfold len in *. simpl in *. split; [done | lia].
Qed.

(** The comments that the pages [pages] hold, in order; a page whose request
    raises holds none. *)
Definition pages_data (pages : list Z) : list comment :=
  concat (List.map (fun page => default [] (get_page page)) pages).

Definition consecutive (first : Z) (pages : list Z) : Prop :=
  pages = List.map (fun i => first + Z.of_nat i) (seq 0 (length pages)).

Lemma consecutive_cons first pages :
  consecutive (first + 1) pages -> consecutive first (first :: pages).
Proof.
  unfold consecutive. intros H. simpl. f_equal; [f_equal; lia|].
  rewrite <- seq_shift, List.map_map. rewrite H at 1.
  apply List.map_ext. intros i. lia.
Qed.

Lemma consecutive_single first : consecutive first [first].
Proof. unfold consecutive. simpl. f_equal. lia. Qed.

(** The page came back with comments: the loop goes on after it. *)
Definition productive (page : Z) : bool :=
  match get_page page with
  | Some (_ :: _) => true
  | _ => false
  end.

Lemma pages_data_cons page later :
  pages_data (page :: later) = default [] (get_page page) ++ pages_data later.
Proof. reflexivity. Qed.

Lemma paged_loop_spec fuel : forall mp mc page comments pages so_far,
  mp - page + 1 <= Z.of_nat fuel ->
  comments = take (Z.to_nat mc) so_far ->
  exists comments' later,
    paged_loop fuel mp mc page comments pages = Some (comments', pages ++ later)
    /\ consecutive page later
    /\ page + Z.of_nat (length later) <= Z.max page (mp + 1)
    /\ comments' = take (Z.to_nat mc) (so_far ++ pages_data later)
    /\ (forall i p, later !! i = Some p -> (S i < length later)%nat ->
          productive p = true)
    /\ (forall i, (i < length later)%nat ->
          len so_far + len (pages_data (take i later)) < mc)
    /\ (page + Z.of_nat (length later) = Z.max page (mp + 1)
        \/ mc <= len so_far + len (pages_data later)
        \/ exists p, last later = Some p /\ productive p = false).
Proof.
  induction fuel as [|fuel IH]; intros mp mc page comments pages so_far Hfuel Hsofar.
  - simpl. destruct (Z.leb_spec page mp); [lia|]. simpl.
    exists comments, []. rewrite !app_nil_r.
    split_and!; [done | done | simpl; lia | done | done | simpl; lia | left; simpl; lia].
  - cbn [paged_loop].
    destruct ((page <=? mp) && (len comments <? mc)) eqn:Hcond.
    2:{ exists comments, []. rewrite !app_nil_r.
        split_and!; [done | done | simpl; lia | done | done | simpl; lia |].
        apply andb_false_iff in Hcond as [Hpage|Hroom].
        - left. apply Z.leb_gt in Hpage. simpl. lia.
        - right. left. apply Z.ltb_ge in Hroom. unfold len in *. simpl.
          subst comments. rewrite length_take in Hroom. lia. }
    apply andb_true_iff in Hcond as [Hpage Hroom].
    apply Z.leb_le in Hpage. apply Z.ltb_lt in Hroom.
    assert (Hall : comments = so_far /\ Z.to_nat (mc - len comments)
                                       = (Z.to_nat mc - length so_far)%nat).
    { unfold len in *. subst comments. rewrite length_take in *.
      assert (length so_far < Z.to_nat mc)%nat by lia.
      rewrite take_ge by lia. split; [done | lia]. }
    destruct Hall as [Hall Hk].
    assert (Hbefore : len so_far + len (pages_data []) < mc).
    { rewrite <- Hall. unfold len at 2. simpl. lia. }
    assert (Hstop : productive page = false ->
      exists comments' later,
        Some (comments, pages ++ [page]) = Some (comments', pages ++ later)
        /\ consecutive page later
        /\ page + Z.of_nat (length later) <= Z.max page (mp + 1)
        /\ comments' = take (Z.to_nat mc) (so_far ++ pages_data later)
        /\ (forall i p, later !! i = Some p -> (S i < length later)%nat ->
              productive p = true)
        /\ (forall i, (i < length later)%nat ->
              len so_far + len (pages_data (take i later)) < mc)
        /\ (page + Z.of_nat (length later) = Z.max page (mp + 1)
            \/ mc <= len so_far + len (pages_data later)
            \/ exists p, last later = Some p /\ productive p = false)).
    { intros Hunproductive. exists comments, [page].
      assert (Hdata : pages_data [page] = []).
      { rewrite pages_data_cons. unfold productive in Hunproductive.
        destruct (get_page page) as [[|c l]|]; done. }
      rewrite Hdata, app_nil_r.
      split_and!; [done | apply consecutive_single | simpl; lia | done | | |].
      - intros i p _ Hi. simpl in Hi. lia.
      - intros i Hi. simpl in Hi. by replace i with 0%nat by lia.
      - right. right. by exists page. }
    destruct (get_page page) as [[|c comment_list]|] eqn:Hget.
    + apply Hstop. unfold productive. by rewrite Hget.
    + destruct (IH mp mc (page + 1)
                  (comments ++ take (Z.to_nat (mc - len comments)) (c :: comment_list))
                  (pages ++ [page]) (so_far ++ c :: comment_list))
        as (c' & later & Heq & Hcons & Hlen & Hdata & Hprod & Hroom' & Hend); [lia | |].
      { rewrite take_app, Hk. f_equal. by rewrite <- Hsofar. }
      assert (Hpage_data : pages_data (page :: later) = (c :: comment_list) ++ pages_data later).
      { rewrite pages_data_cons. by rewrite Hget. }
      assert (Hlen_app : forall l, len (so_far ++ c :: comment_list) + len l
                                   = len so_far + len ((c :: comment_list) ++ l)).
      { intros l. unfold len. rewrite !length_app. lia. }
      exists c', (page :: later). rewrite Heq, <- app_assoc. cbn [length].
      split_and!; [done | by apply consecutive_cons | lia | | | |].
      * rewrite Hdata, Hpage_data. by rewrite <- app_assoc.
      * intros [|i] p Hp Hi.
        -- injection Hp as <-. unfold productive. by rewrite Hget.
        -- simpl in Hp. apply (Hprod i p Hp). simpl in Hi. lia.
      * intros [|i] Hi; [done|].
        cbn [take]. rewrite pages_data_cons, Hget. cbn [default].
        rewrite <- Hlen_app. apply Hroom'. simpl in Hi. lia.
      * destruct Hend as [Hend|[Hend|(p & Hp & Hunproductive)]].
        -- left. lia.
        -- right. left. rewrite Hpage_data, <- Hlen_app. done.
        -- right. right. exists p. split; [|done].
           destruct later as [|q later]; [done|]. done.
    + apply Hstop. unfold productive. by rewrite Hget.
Qed.

(** X9. [_fetch_comments_paged] always comes back.  It requests the pages 1,
    2, 3, ... in order, at most [(max_comments + 19) // 20] of them, and
    returns the first [max_comments] comments of what these pages hold.  It
    stops at the first page that is empty or fails: every page that is
    followed by another request came back with comments.  No page is
    requested once [max_comments] comments are collected, and the loop ends
    only when the last page requested was empty or failed, when
    [max_comments] comments are collected, or when all the
    [(max_comments + 19) // 20] pages were requested. *)
Theorem fetch_comments_paged_prefix max_comments :
  exists comments pages,
    fetch_comments_paged max_comments = Some (comments, pages)
    /\ consecutive 1 pages
    /\ Z.of_nat (length pages) <= Z.max 0 (max_pages max_comments)
    /\ comments = take (Z.to_nat max_comments) (pages_data pages)
    /\ (forall i page, pages !! i = Some page -> (S i < length pages)%nat ->
          productive page = true)
    /\ (forall i, (i < length pages)%nat ->
          len (pages_data (take i pages)) < max_comments)
    /\ (Z.of_nat (length pages) = Z.max 0 (max_pages max_comments)
        \/ max_comments <= len (pages_data pages)
        \/ exists page, last pages = Some page /\ productive page = false).
Proof.
  unfold fetch_comments_paged.
  destruct (paged_loop_spec (Z.to_nat (max_pages max_comments)) (max_pages max_comments)
              max_comments 1 [] [] [])
    as (c & later & Heq & Hcons & Hlen & Hdata & Hprod & Hroom & Hend);
    [lia | by rewrite take_nil |].
  exists c, later. simpl in *.
  split_and!; [done | done | lia | done | done | |].
  - intros i Hi. specialize (Hroom i Hi). unfold len in *. simpl in Hroom. lia.
  - destruct Hend as [Hend|[Hend|Hend]]; [left; lia | right; left | by right; right].
    unfold len in *. simpl in Hend. lia.
Qed.

(** *** The retries *)

(** X10. With two or more tries allowed (three by default),
    [_fetch_comments_with_retry] never raises: when the first try fails, the
    second one is the alternative method, which swallows its own errors, so
    the call returns what that method collected (possibly nothing) after one
    counted retry; the third method is never reached. *)
Theorem fetch_comments_with_retry_never_raises post_id max_retries max_comments :
  2 <= max_retries ->
  exists effects comments,
    fetch_comments_with_retry post_id max_retries max_comments
    = (effects, Returned comments)
    /\ match get_note_all_comments with
       | inl first => comments = first /\ effects = []
       | inr error_message =>
           (exists requests,
              fetch_comments_alternative max_comments = Some (comments, requests))
           /\ effects = (on_error 0 max_retries error_message).1
                        ++ [CountRetry; SleepBackoff 1]
       end.
Proof.
  intros Hmax. unfold fetch_comments_with_retry.
  destruct (Z.to_nat max_retries) as [|[|remaining]] eqn:Hn; [lia | lia |].
  cbn [retry_loop]. unfold attempt at 1.
  destruct get_note_all_comments as [first|error_message].
  { exists [], first. done. }
  assert (Hraise : (on_error 0 max_retries error_message).2 = false).
  { unfold on_error. destruct (Z.eqb_spec (Z.of_nat 0) (max_retries - 1)); [lia|].
    destruct (contains "Expecting value" error_message); [done|].
    by destruct (contains "Connection" error_message || contains "Timeout" error_message). }
  destruct (on_error 0 max_retries error_message) as [effects reraise].
  simpl in Hraise. subst reraise.
  unfold attempt. unfold fetch_comments_alternative.
  destruct (alternative_loop_spec (Z.to_nat max_comments) 0 max_comments 0 0 [])
    as (c & r & Heq & _); [unfold len; simpl; lia|].
  rewrite Heq. simpl.
  exists (effects ++ [CountRetry; SleepBackoff 1]), c. split; [done|].
  split; [by exists r | done].
Qed.

(** X11. With a single try allowed, a failure of the first try is raised
    without any pause: an error of the rate-limit or network class
    ("Expecting value", "Connection", "Timeout") is replaced by the message
    "Failed to get comments after 1 retries for post ...", any other error is
    re-raised as it is. *)
Theorem fetch_comments_with_retry_single post_id max_comments error_message :
  get_note_all_comments = inr error_message ->
  fetch_comments_with_retry post_id 1 max_comments
  = ([],
     Raised (if contains "Expecting value" error_message
                || contains "Connection" error_message
                || contains "Timeout" error_message
             then "Failed to get comments after 1 retries for post " +:+ post_id
             else error_message)).
Proof.
  intros Hfirst. unfold fetch_comments_with_retry. simpl.
  rewrite Hfirst. unfold on_error. simpl.
  destruct (contains "Expecting value" error_message); [done|]. simpl.
  by destruct (contains "Connection" error_message || contains "Timeout" error_message).
Qed.

End Client.
(** A client that is being rate limited: the first try fails on an empty
    body and every later request raises. *)
Definition limited_first : list string + string :=
  inr "Expecting value: line 1 column 1 (char 0)"%string.
Definition limited_comments (k : nat) (max_id max_id_type : Z)
  : option (comments_res string) := None.
Definition limited_page (page : Z) : option (list string) := None.

Lemma fetch_comments_with_retry_never_raises_witness :
  exists effects comments,
    fetch_comments_with_retry string limited_first limited_comments limited_page "42" 3 100
    = (effects, Returned string comments)
    /\ (exists requests,
          fetch_comments_alternative string limited_comments 100
          = Some (comments, requests))
    /\ effects = (on_error 0 3 "Expecting value: line 1 column 1 (char 0)").1
                 ++ [CountRetry; SleepBackoff 1].
Proof.
  apply (fetch_comments_with_retry_never_raises string limited_first limited_comments
           limited_page "42" 3 100).
  lia.
Defined.

Lemma fetch_comments_with_retry_single_witness :
  fetch_comments_with_retry string limited_first limited_comments limited_page "42" 1 100
  = ([], Raised string "Failed to get comments after 1 retries for post 42").
Proof.
  apply (fetch_comments_with_retry_single string limited_first limited_comments
           limited_page "42" 100 "Expecting value: line 1 column 1 (char 0)").
  reflexivity.
Defined.

(** The rate-limited client with the default three tries: one pause for the
    rate limit, one counted retry, and an empty list is returned. *)
Example fetch_comments_with_retry_limited :
  fetch_comments_with_retry string limited_first limited_comments limited_page "42" 3 100
  = ([SleepRateLimit; CountRetry; SleepBackoff 1], Returned string []).
Proof. reflexivity. Qed.

End Fetch.

(* ===================================================================== *)
(** ** sdk/task_scheduler.py : the tasks of a search *)
(* ===================================================================== *)

Module Scheduler.

(** [Task] (lines 10-31) of type ['search']: [data] is
    [{'keywords': ..., 'max_results': ...}]; the account is a position in
    the platform's list of the account manager. *)
Record Task := mkTask {
  task_type : string;
  platform : string;
  keywords : list string;
  max_results : Z;
  account : option nat;
  proxy : option Proxy.ProxyInfo
}.

(** [xs[i % len(xs)] if xs else None] *)
Definition pick {A : Type} (xs : list A) (i : nat) : option A :=
  match xs with
  | [] => None
  | _ => xs !! (i mod length xs)%nat
  end.

(** [chunk_size = max(1, len(keywords) // concurrent_tasks)] and the slices
    [keywords[i:i+chunk_size]] (lines 66-67); [None] is the
    [ZeroDivisionError] of [concurrent_tasks = 0]. *)
Definition keyword_chunks (keywords : list string) (concurrent_tasks : Z)
  : option (list (list string)) :=
  if concurrent_tasks =? 0 then None
  else
    let chunk_size := Z.max 1 (Z.of_nat (length keywords) / concurrent_tasks) in
    Some (Progress.batches_from (length keywords) (Z.to_nat chunk_size) keywords).

Section Schedule.
(** The clock and the draws of the account manager, the provider of the
    proxy manager, and the time of the calls on the proxy manager. *)
Variable clock : nat -> Z.
Variable choice : nat -> nat.
Variable get_proxies : nat -> Z -> option (list Proxy.IpInfoModel).
Variable now : Z.

(** [schedule_search_task] (lines 48-86) up to the call of
    [_execute_tasks]: the tasks it builds, and the two managers as it
    leaves them. *)
Definition schedule_search_task
    (account_manager : gmap string (list Accounts.Account))
    (proxy_manager : Proxy.ProxyManager)
    (platform : string) (keywords : list string) (max_results concurrent_tasks : Z)
  : option (list Task * gmap string (list Accounts.Account) * Proxy.ProxyManager) :=
  let proxy_manager := Proxy.initialize_pool get_proxies 20 proxy_manager in
  match keyword_chunks keywords concurrent_tasks with
  | None => None
  | Some chunks =>
      let count := Z.of_nat (length chunks) in
      let '(accounts, account_manager) :=
        Accounts.get_accounts_for_concurrent_tasks clock choice
          account_manager platform count in
      let '(proxies, proxy_manager) :=
        Proxy.get_proxies_for_concurrent_tasks get_proxies now count proxy_manager in
      Some (imap (fun i keyword_chunk =>
                    mkTask "search" platform keyword_chunk max_results
                      (pick accounts i) (pick proxies i ≫= id))
              chunks,
            account_manager, proxy_manager)
  end.

End Schedule.

(** *** The chunks *)

Lemma batches_from_nil fuel size : Progress.batches_from fuel size [] = [].
Proof. by destruct fuel. Qed.

(** The number of slices: just enough of them to cover the list. *)
Lemma batches_from_length fuel size : forall l,
  (0 < size)%nat -> (length l <= fuel)%nat ->
  (length l <= length (Progress.batches_from fuel size l) * size < length l + size)%nat.
Proof.
  induction fuel as [|fuel IH]; intros l Hsize Hfuel.
  - destruct l; simpl in *; lia.
  - destruct l as [|x l]; [simpl; lia|].
    cbn [Progress.batches_from length].
    destruct (drop size (x :: l)) as [|y rest] eqn:Hdrop.
    + rewrite batches_from_nil. simpl.
      assert (length (drop size (x :: l)) = 0%nat) as Hlen by (by rewrite Hdrop).
      rewrite length_drop in Hlen. simpl in Hlen. lia.
    + rewrite <- Hdrop.
      assert (Hlen : length (drop size (x :: l)) = (length (x :: l) - size)%nat)
        by apply length_drop.
      assert (Hpos : (0 < length (drop size (x :: l)))%nat) by (rewrite Hdrop; simpl; lia).
      specialize (IH (drop size (x :: l)) Hsize).
      simpl in Hlen, Hfuel. rewrite Hlen in IH, Hpos. simpl. lia.
Qed.

(** X26. For [concurrent_tasks >= 1] the chunks are consecutive slices
    that make up the keywords, none of them empty.  With fewer keywords
    than [concurrent_tasks] there is one chunk per keyword; otherwise there
    are at least [concurrent_tasks] chunks and fewer than twice as many:
    [concurrent_tasks] is not an upper bound on the number of tasks. *)
Theorem keyword_chunks_count keywords concurrent_tasks :
  1 <= concurrent_tasks ->
  exists chunks,
    keyword_chunks keywords concurrent_tasks = Some chunks
    /\ concat chunks = keywords
    /\ (forall chunk, chunk ∈ chunks -> (0 < length chunk)%nat)
    /\ if Z.of_nat (length keywords) <? concurrent_tasks
       then length chunks = length keywords
       else concurrent_tasks <= Z.of_nat (length chunks) < 2 * concurrent_tasks.
Proof.
  intros Htasks. unfold keyword_chunks.
  destruct (Z.eqb_spec concurrent_tasks 0) as [|_]; [lia|].
  set (n := Z.of_nat (length keywords)).
  set (chunk_size := Z.max 1 (n / concurrent_tasks)).
  assert (Hsize : (0 < Z.to_nat chunk_size)%nat) by (unfold chunk_size; lia).
  eexists. split; [done|].
  pose proof (batches_from_length (length keywords) (Z.to_nat chunk_size) keywords
                Hsize (le_n _)) as Hcount.
  set (chunks := Progress.batches_from (length keywords) (Z.to_nat chunk_size) keywords) in *.
  split_and!.
  - apply Progress.batches_from_concat; [done | lia].
  - intros chunk Hchunk.
    by destruct (Progress.batches_from_sizes _ _ _ _ Hsize Hchunk).
  - assert (Hk : n <= Z.of_nat (length chunks) * chunk_size < n + chunk_size).
    { unfold n. replace chunk_size with (Z.of_nat (Z.to_nat chunk_size))
        by (unfold chunk_size; lia).
      rewrite <- Nat2Z.inj_mul. lia. }
    pose proof (Z.div_mod n concurrent_tasks ltac:(lia)) as Hdiv.
    pose proof (Z.mod_pos_bound n concurrent_tasks ltac:(lia)) as Hmod.
    destruct (Z.ltb_spec n concurrent_tasks) as [Hfew|Hmany].
    + assert (chunk_size = 1) as Hone.
      { unfold chunk_size. rewrite Z.div_small by (unfold n; lia). lia. }
      rewrite Hone in Hk. unfold n in Hk. lia.
    + assert (Hq : 1 <= n / concurrent_tasks).
      { apply Z.div_le_lower_bound; lia. }
      assert (chunk_size = n / concurrent_tasks) as Hcs by (unfold chunk_size; lia).
      rewrite Hcs in Hk.
      set (q := n / concurrent_tasks) in *. set (k := Z.of_nat (length chunks)) in *.
      split; nia.
Qed.


(** *** The slots of the tasks *)

Lemma pick_lookup {A : Type} (xs : list A) (i n : nat) :
  length xs = n -> (i < n)%nat -> pick xs i = xs !! i /\ is_Some (xs !! i).
Proof.
  intros Hlen Hi. split.
  - unfold pick. destruct xs as [|x xs]; [done|].
    by rewrite Nat.mod_small by lia.
  - apply lookup_lt_is_Some. lia.
Qed.

Section Slots.
Variable clock : nat -> Z.
Variable choice : nat -> nat.
Variable get_proxies : nat -> Z -> option (list Proxy.IpInfoModel).
Variable now : Z.

(** X4. For [concurrent_tasks >= 1], [schedule_search_task] builds one
    task per chunk, in order.  The account manager and the proxy manager
    are each asked for as many slots as there are chunks, and task [i]
    gets slot [i] of either answer: the index never wraps around.  On a
    platform with accounts every task has an account; on a platform
    without, the tasks are built all the same, with no account.  The
    proxy of a task is [None] where the proxy manager had none left. *)
Theorem schedule_search_task_slots account_manager proxy_manager
    (name : string) (words : list string) (results concurrent_tasks : Z) :
  1 <= concurrent_tasks ->
  exists chunks tasks account_manager' proxy_manager',
    keyword_chunks words concurrent_tasks = Some chunks
    /\ schedule_search_task clock choice get_proxies now
         account_manager proxy_manager name words results concurrent_tasks
       = Some (tasks, account_manager', proxy_manager')
    /\ List.map keywords tasks = chunks
    /\ let count := Z.of_nat (length chunks) in
       let accounts :=
         (Accounts.get_accounts_for_concurrent_tasks clock choice
            account_manager name count).1 in
       let proxies :=
         (Proxy.get_proxies_for_concurrent_tasks get_proxies now count
            (Proxy.initialize_pool get_proxies 20 proxy_manager)).1 in
       forall i task, tasks !! i = Some task ->
         is_Some (proxies !! i)
         /\ proxy task = proxies !! i ≫= id
         /\ match account_manager !! name with
            | None | Some [] => account task = None
            | Some _ => is_Some (accounts !! i) /\ account task = accounts !! i
            end.
Proof.
  intros Htasks.
  destruct (keyword_chunks words concurrent_tasks) as [chunks|] eqn:Hchunks.
  2:{ unfold keyword_chunks in Hchunks.
      destruct (Z.eqb_spec concurrent_tasks 0); [lia | done]. }
  exists chunks. unfold schedule_search_task. rewrite Hchunks. cbv zeta.
  set (count := Z.of_nat (length chunks)).
  pose proof (Proxy.get_proxies_for_concurrent_tasks_length get_proxies now count
                (Proxy.initialize_pool get_proxies 20 proxy_manager)) as Hproxies.
  destruct (Proxy.get_proxies_for_concurrent_tasks get_proxies now count _)
    as [proxies proxy_manager'].
  assert (Haccounts :
            match account_manager !! name with
            | None | Some [] =>
                (Accounts.get_accounts_for_concurrent_tasks clock choice
                   account_manager name count).1 = []
            | Some _ =>
                length (Accounts.get_accounts_for_concurrent_tasks clock choice
                          account_manager name count).1 = length chunks
            end).
  { destruct (account_manager !! name) as [[|a l]|] eqn:Hlookup.
    - unfold Accounts.get_accounts_for_concurrent_tasks. by rewrite Hlookup.
    - pose proof (Accounts.get_accounts_for_concurrent_tasks_length clock choice
                    account_manager name count a l Hlookup) as Hlen.
      apply Nat2Z.inj. apply Hlen. unfold count. lia.
    - unfold Accounts.get_accounts_for_concurrent_tasks. by rewrite Hlookup. }
  destruct (Accounts.get_accounts_for_concurrent_tasks clock choice account_manager name count)
    as [accounts account_manager'].
  simpl in Hproxies, Haccounts.
  eexists _, _, _. split_and!; [done | done | |].
  - change (List.map ?f ?l) with (f <$> l). rewrite fmap_imap.
    rewrite (imap_ext _ (fun _ chunk => chunk)) by done.
    rewrite (imap_const id). apply list_fmap_id.
  - cbn [fst]. intros i task Htask.
    rewrite list_lookup_imap in Htask.
    destruct (chunks !! i) as [chunk|] eqn:Hchunk; [|done].
    injection Htask as <-. cbn [proxy account].
    apply lookup_lt_Some in Hchunk.
    destruct (pick_lookup proxies i (length chunks)) as [-> Hsome];
      [unfold count in Hproxies; lia | done |].
    split_and!; [done | done |].
    destruct (account_manager !! name) as [[|a l]|].
    + by rewrite Haccounts.
    + by destruct (pick_lookup accounts i (length chunks) Haccounts Hchunk) as [-> ?].
    + by rewrite Haccounts.
Qed.

End Slots.

(** Three keywords for two concurrent tasks give three tasks of one
    keyword each: the two accounts are shared among them, and each task has
    a proxy of its own. *)
Example schedule_search_task_sample :
  option_map (fun r => List.map (fun t => (keywords t, account t)) r.1.1)
    (schedule_search_task Accounts.sample_clock Accounts.sample_choice
       (Proxy.mock_get_proxies 1000) 1000
       Accounts.sample_accounts Proxy.sample_manager "weibo" ["a"; "b"; "c"] 100 2)
  = Some [ (["a"], Some 0%nat); (["b"], Some 1%nat); (["c"], Some 1%nat) ]%string.
Proof. reflexivity. Qed.


Lemma keyword_chunks_count_witness :
  exists chunks,
    keyword_chunks ["a"; "b"; "c"]%string 2 = Some chunks
    /\ concat chunks = ["a"; "b"; "c"]%string
    /\ (forall chunk, chunk ∈ chunks -> (0 < length chunk)%nat)
    /\ if Z.of_nat (length ["a"; "b"; "c"]%string) <? 2
       then length chunks = length ["a"; "b"; "c"]%string
       else 2 <= Z.of_nat (length chunks) < 2 * 2.
Proof.
  apply (keyword_chunks_count ["a"; "b"; "c"]%string 2). lia.
Defined.

Lemma schedule_search_task_slots_witness :
  exists chunks tasks account_manager' proxy_manager',
    keyword_chunks ["a"; "b"; "c"]%string 2 = Some chunks
    /\ schedule_search_task Accounts.sample_clock Accounts.sample_choice
         (Proxy.mock_get_proxies 1000) 1000
         Accounts.sample_accounts Proxy.sample_manager "weibo" ["a"; "b"; "c"]%string 100 2
       = Some (tasks, account_manager', proxy_manager')
    /\ List.map keywords tasks = chunks
    /\ let count := Z.of_nat (length chunks) in
       let accounts :=
         (Accounts.get_accounts_for_concurrent_tasks Accounts.sample_clock
            Accounts.sample_choice Accounts.sample_accounts "weibo" count).1 in
       let proxies :=
         (Proxy.get_proxies_for_concurrent_tasks (Proxy.mock_get_proxies 1000) 1000 count
            (Proxy.initialize_pool (Proxy.mock_get_proxies 1000) 20 Proxy.sample_manager)).1 in
       forall i task, tasks !! i = Some task ->
         is_Some (proxies !! i)
         /\ proxy task = proxies !! i ≫= id
         /\ match Accounts.sample_accounts !! "weibo"%string with
            | None | Some [] => account task = None
            | Some _ => is_Some (accounts !! i) /\ account task = accounts !! i
            end.
Proof.
  apply (schedule_search_task_slots Accounts.sample_clock Accounts.sample_choice
           (Proxy.mock_get_proxies 1000) 1000
           Accounts.sample_accounts Proxy.sample_manager "weibo"
           ["a"; "b"; "c"]%string 100 2).
  lia.
Defined.


End Scheduler.
